(** * dhttp: a shallow embedding of the configurable HTTP client

    The development follows the Go sources: [httpclient.go] (options,
    transport / redirect / jar builders, the [Client] and its request
    methods), the utility file ([addQuery], [mergeOptions], [mergeHeaders],
    [checkParamFile], [hasOption]) and the package-level facade with its
    default client.

    Conventions of the embedding.
    - A Go [int] is a [Z]; the arithmetic the code performs on option
      values is [* 1000] and the conversion of milliseconds to a
      [time.Duration], both written with their 64-bit wrap-around
      ([int_mul], [Duration_of_millis]).
    - A Go [string] is a [string] (a sequence of bytes).
    - [map[K]V] is a [gmap K V]; where the code tests a map against [nil]
      the field is an [option (gmap K V)] with [None] for the nil map.
    - [interface{}] option values are the tagged union [value].
    - A [range] over a map whose visiting order can change the result
      ([checkParamFile], [PostMultipart]) receives the entries as a list in
      the order the runtime happens to visit them; the loop of
      [prepareRequest] over the headers takes its order from the
      environment.
    - Header names are stored as [net/http] stores them, under their
      canonical form ([CanonicalMIMEHeaderKey]).
    - Methods on a [Client] pointer are state transformers over [World]: the client
      object plus the allocator of fresh object identities. *)

From Stdlib Require Import ZArith Lia Ascii DecimalString.
From stdpp Require Import gmap strings list fin_maps sorting.

Local Open Scope string_scope.
Local Open Scope Z_scope.

(** ** Constants (the [const ( ... iota ... )] block)

    [VERSION] occupies position 0 of the block, so [PROXY_HTTP = iota] is 1
    and every following name increments by one. *)

Definition VERSION : string := "2.0".

Definition PROXY_HTTP : Z := 1.
Definition PROXY_SOCKS4 : Z := 2.
Definition PROXY_SOCKS5 : Z := 3.
Definition PROXY_SOCKS4A : Z := 4.

Definition OPT_AUTOREFERER : Z := 5.
Definition OPT_FOLLOWLOCATION : Z := 6.
Definition OPT_CONNECTTIMEOUT : Z := 7.
Definition OPT_CONNECTTIMEOUT_MS : Z := 8.
Definition OPT_MAXREDIRS : Z := 9.
Definition OPT_PROXYTYPE : Z := 10.
Definition OPT_TIMEOUT : Z := 11.
Definition OPT_TIMEOUT_MS : Z := 12.
Definition OPT_COOKIEJAR : Z := 13.
Definition OPT_INTERFACE : Z := 14.
Definition OPT_PROXY : Z := 15.
Definition OPT_REFERER : Z := 16.
Definition OPT_USERAGENT : Z := 17.

Definition OPT_REDIRECT_POLICY : Z := 18.
Definition OPT_PROXY_FUNC : Z := 19.

(** ** Go [int] arithmetic (64-bit two's complement) *)

Definition int_wrap (z : Z) : Z := (z + 2 ^ 63) mod 2 ^ 64 - 2 ^ 63.

Definition int_mul (a b : Z) : Z := int_wrap (a * b).

(** ** Errors *)

(** Modelled from the spec: the [Error] struct and the [ERR_REDIRECT_POLICY]
    code are declared in a file of the package that is not part of the
    sources at hand; the spec describes the code as the distinguished
    "redirect denied" classification carried together with a message. *)
Inductive ErrorCode : Type := ERR_REDIRECT_POLICY.

Inductive error : Type :=
| Errorf (msg : string)                          (* fmt.Errorf(msg) *)
| CodedError (Code : ErrorCode) (Message : string)  (* &Error{Code, Message} *)
| ForeignError (origin : string) (detail : string). (* net/http, net/url, os *)

(** ** Requests, cookies, jars *)

Record Cookie : Type := mkCookie { cookie_Name : string; cookie_Value : string }.

(** One part of a multipart body, as handed to the [multipart.Writer]. *)
Inductive Part : Type :=
| FieldPart (name : string) (val : string)                    (* WriteField *)
| FilePart (name : string) (filename : string) (content : string). (* CreateFormFile + io.Copy *)

Inductive Body : Type :=
| NoBody
| ReaderBody (content : string)        (* strings.NewReader(s) *)
| MultipartBody (parts : list Part).   (* the bytes.Buffer behind a closed multipart.Writer *)

(** An [http.Request]. [req_Header] is the header map, with one value per
    name; [Header_Set] and [Header_Get] below canonicalise the name as
    [http.Header] does. [req_Cookies] logs the cookies passed to
    [AddCookie], in order; their effect on the request is the [Cookie]
    header. *)
Record Request : Type := mkRequest {
  req_Method : string;
  req_URL : string;
  req_Header : gmap string string;
  req_Body : Body;
  req_Cookies : list Cookie
}.

(** An [http.CookieJar] instance is known by its identity. *)
Record Jar : Type := mkJar { jar_id : nat }.

(** ** Option values ([interface{}]) *)

Inductive value : Type :=
| VInt (n : Z)
| VBool (b : bool)
| VString (s : string)
| VProxyFunc (f : Request -> Z * string * option error)
      (* a func from a request pointer to (int, string, error) *)
| VRedirectFunc (f : Request -> list Request -> option error)
      (* a func from a request pointer and the slice of prior requests to error *)
| VJar (j : Jar)                                  (* an http.CookieJar *)
| VOther (dyntype : string).                      (* any other dynamic type *)

(** A map that may be [nil]. Ranging over, or reading from, a nil map
    behaves like the empty map. *)
Definition entries {K} `{Countable K} {V} (m : option (gmap K V)) : gmap K V :=
  default ∅ m.

(** ** Package-level tables *)

Definition defaultOptions : gmap Z value :=
  <[OPT_FOLLOWLOCATION := VBool true]>
  (<[OPT_MAXREDIRS := VInt 10]>
  (<[OPT_AUTOREFERER := VBool true]>
  (<[OPT_USERAGENT := VString ""]>
  (<[OPT_COOKIEJAR := VBool true]> ∅)))).

Definition transportOptions : list Z :=
  [ OPT_CONNECTTIMEOUT; OPT_CONNECTTIMEOUT_MS; OPT_PROXYTYPE; OPT_TIMEOUT;
    OPT_TIMEOUT_MS; OPT_INTERFACE; OPT_PROXY; OPT_PROXY_FUNC ].

Definition jarOptions : list Z := [ OPT_COOKIEJAR ].

(** ** Utilities *)

(** [for name, value := range piece { merged[name] = value }]. The keys of
    one map are distinct, so the visiting order is immaterial (lemma
    [range_assign_any_order] below). *)
Definition range_assign {K} `{Countable K} {V}
    (merged : gmap K V) (piece : option (gmap K V)) : gmap K V :=
  map_fold (fun name val acc => <[name := val]> acc) merged (entries piece).

Definition mergeOptions (options : list (option (gmap Z value))) : gmap Z value :=
  foldl range_assign ∅ options.

Definition mergeHeaders (headers : list (option (gmap string string)))
  : gmap string string :=
  foldl range_assign ∅ headers.

(** [hasOption]: returns [true] at the first element that DIFFERS from
    [opt]. *)
Fixpoint hasOption (opt : Z) (options : list Z) : bool :=
  match options with
  | [] => false
  | val :: rest => if negb (Z.eqb opt val) then true else hasOption opt rest
  end.

(** *** Outcomes of code that may stop the program

    [Crash] is a run-time panic or a fatal run-time error; [Blocks] is a
    call that waits for ever (a [Lock] on a mutex that nobody releases). *)
Inductive outcome (A : Type) : Type :=
| Done (a : A)
| Crash (msg : string)
| Blocks.
Arguments Done {A} a.
Arguments Crash {A} msg.
Arguments Blocks {A}.

(** *** Strings *)

(** [strings.Contains(s, substr)] *)
Fixpoint strings_Contains (s substr : string) : bool :=
  String.prefix substr s ||
  match s with
  | EmptyString => false
  | String _ s' => strings_Contains s' substr
  end.

(** [strings.HasSuffix(s, suffix)] *)
Definition strings_HasSuffix (s suffix : string) : bool :=
  String.prefix (String.rev suffix) (String.rev s).

(** [fmt.Sprintf] of a [%d] verb for a length. *)
Definition itoa (n : nat) : string := NilZero.string_of_uint (Nat.to_uint n).

Definition is_lower (c : ascii) : bool :=
  ((97 <=? N_of_ascii c) && (N_of_ascii c <=? 122))%N.

Definition is_upper (c : ascii) : bool :=
  ((65 <=? N_of_ascii c) && (N_of_ascii c <=? 90))%N.

Definition is_digit (c : ascii) : bool :=
  ((48 <=? N_of_ascii c) && (N_of_ascii c <=? 57))%N.

(** [validHeaderFieldByte] of [net/textproto]: the token characters. *)
Definition validHeaderFieldByte (c : ascii) : bool :=
  is_lower c || is_upper c || is_digit c
  || existsb (N.eqb (N_of_ascii c))
       [33; 35; 36; 37; 38; 39; 42; 43; 45; 46; 94; 95; 96; 124; 126]%N.

Fixpoint all_bytes (f : ascii -> bool) (s : string) : bool :=
  match s with
  | EmptyString => true
  | String c s' => f c && all_bytes f s'
  end.

(** The rewriting loop of [canonicalMIMEHeaderKey]: upper case for the
    first letter and for a letter after a dash, lower case elsewhere. *)
Fixpoint canonical_case (upper : bool) (s : string) : string :=
  match s with
  | EmptyString => EmptyString
  | String c s' =>
      let c := if upper && is_lower c then ascii_of_N (N_of_ascii c - 32)
               else if negb upper && is_upper c then ascii_of_N (N_of_ascii c + 32)
               else c in
      String c (canonical_case (Ascii.eqb c "-"%char) s')
  end.

(** [textproto.CanonicalMIMEHeaderKey]: a key with a space or another byte
    that is not allowed in a header name is returned as it is. *)
Definition CanonicalMIMEHeaderKey (s : string) : string :=
  if all_bytes validHeaderFieldByte s then canonical_case true s else s.

(** *** [url.Values]

    A [url.Values] is a [map[string][]string]. The list holds its entries,
    one per key, in the order in which a [range] statement visits them. *)
Definition Values : Type := list (string * list string).

(** [params[k]] *)
Fixpoint values_get (params : Values) (k : string) : list string :=
  match params with
  | [] => []
  | (k', vs) :: rest => if decide (k = k') then vs else values_get rest k
  end.

Definition hexdigit (n : N) : ascii :=
  default "0"%char (String.get (N.to_nat n) "0123456789ABCDEF").

(** [shouldEscape(c, encodeQueryComponent)] of [net/url]: letters, digits
    and [-_.~] pass, everything else is escaped. *)
Definition shouldEscape (c : ascii) : bool :=
  let n := N_of_ascii c in
  negb (((97 <=? n) && (n <=? 122)) || ((65 <=? n) && (n <=? 90))
        || ((48 <=? n) && (n <=? 57))
        || (n =? 45) || (n =? 95) || (n =? 46) || (n =? 126))%N.

(** [url.QueryEscape] *)
Fixpoint QueryEscape (s : string) : string :=
  match s with
  | EmptyString => EmptyString
  | String c s' =>
      if Ascii.eqb c " "%char then String "+"%char (QueryEscape s')
      else if shouldEscape c then
        let n := N_of_ascii c in
        String "%"%char (String (hexdigit (n / 16)) (String (hexdigit (n mod 16))
          (QueryEscape s')))
      else String c (QueryEscape s')
  end.

(** [Values.Encode]: [key=value] pairs, keys sorted, joined by [&]. *)
Definition Encode (v : Values) : string :=
  let keys := merge_sort String.le (v.*1) in
  String.concat "&"
    (flat_map (fun k => (fun val => QueryEscape k +:+ "=" +:+ QueryEscape val)
                          <$> values_get v k) keys).

(** Add query to a url string. *)
Definition addQuery (url : string) (params : Values) : string :=
  if decide (length params = 0%nat) then url
  else
    let url := if negb (strings_Contains url "?") then url +:+ "?" else url in
    let url := if negb (strings_HasSuffix url "?") && negb (strings_HasSuffix url "&")
               then url +:+ "&" else url in
    url +:+ Encode params.

(** Does the params contain a file? [paramName[0]] is evaluated for each
    visited key before anything else. *)
Fixpoint checkParamFile (params : Values) : outcome bool :=
  match params with
  | [] => Done false
  | (paramName, _) :: rest =>
      match String.get 0 paramName with
      | None => Crash "index out of range [0] with length 0"
      | Some c => if Ascii.eqb c "@"%char then Done true else checkParamFile rest
      end
  end.

(** ** The collaborators outside the package

    What the code asks of [net/http], [net/url], [os], [path/filepath] and
    [mime/multipart], as far as it decides the control flow of this
    package. *)
Record Env : Type := mkEnv {
  (* the error of http.NewRequest(method, url, body), if any *)
  NewRequest_error : string -> string -> option error;
  (* the error of url.Parse(rawurl), if any *)
  url_Parse_error : string -> option error;
  (* os.Open(path) followed by reading the file to its end *)
  os_Open : string -> error + string;
  (* filepath.Base(path) *)
  filepath_Base : string -> string;
  (* the boundary the multipart.Writer picked *)
  multipart_Boundary : string;
  (* sanitizeCookieName and sanitizeCookieValue of net/http *)
  sanitizeCookieName : string -> string;
  sanitizeCookieValue : string -> string;
  (* the order in which a range statement visits the entries of a header
     map: any order is possible, and every entry is visited once *)
  range_headers : gmap string string -> list (string * string);
  range_headers_visits : forall m, range_headers m ≡ₚ map_to_list m
}.

(** *** Errors threaded through a builder *)

Definition ebind {A B} (x : error + A) (k : A -> error + B) : error + B :=
  match x with
  | inl err => inl err
  | inr a => k a
  end.

Notation "'try' x <- e 'in' k" := (ebind e (fun x => k))
  (at level 10, x name, e at level 100, k at level 200).

(** ** Transport *)

Inductive ProxySetting : Type :=
| ProxyUnset                                                   (* transport.Proxy stays nil *)
| ProxyDynamic (proxyFunc : Request -> Z * string * option error) (* the closure over proxyFunc *)
| ProxyFixed (proxyUrl : string).                              (* http.ProxyURL(proxyUrl) *)

(** The [http.Transport] built by [prepareTransport]: its identity and the
    variables its [Dial] and [Proxy] closures captured. *)
Record Transport : Type := mkTransport {
  tr_id : nat;
  tr_connectTimeoutMS : Z;
  tr_timeoutMS : Z;
  tr_Proxy : ProxySetting
}.

(** What the [Dial] closure does on a successful connect. Both calls are
    recorded with the value of the millisecond variable they are made from;
    the [time.Duration] the callee receives is computed from it by
    [Duration_of_millis] below. *)
Inductive DialCall : Type :=
| DialTimeout (millis : Z)
    (* net.DialTimeout(network, addr, time.Duration(millis)*time.Millisecond) *)
| DialPlain.                   (* net.Dial(network, addr) *)

Record DialPlan : Type := mkDialPlan {
  dial_call : DialCall;
  dial_deadline : option Z
    (* conn.SetDeadline(time.Now().Add(time.Duration(millis)*time.Millisecond)),
       if armed *)
}.

(** [time.Millisecond], in the nanoseconds a [time.Duration] counts. *)
Definition time_Millisecond : Z := 1000000.

(** [time.Duration(millis) * time.Millisecond]: an [int64] product. *)
Definition Duration_of_millis (millis : Z) : Z := int_mul millis time_Millisecond.

(** The [time.Duration] handed to [net.DialTimeout], if that is the call. *)
Definition timeout_passed (p : DialPlan) : option Z :=
  match dial_call p with
  | DialTimeout millis => Some (Duration_of_millis millis)
  | DialPlain => None
  end.

(** The [time.Duration] added to [time.Now()] for the deadline, if armed. *)
Definition deadline_passed (p : DialPlan) : option Z :=
  Duration_of_millis <$> dial_deadline p.

Definition Dial (t : Transport) : DialPlan :=
  {| dial_call := if 0 <? tr_connectTimeoutMS t
                  then DialTimeout (tr_connectTimeoutMS t) else DialPlain;
     dial_deadline := if 0 <? tr_timeoutMS t then Some (tr_timeoutMS t) else None |}.

(** The [transport.Proxy] closure built around a resolver function. *)
Definition dynamicProxy (E : Env) (proxyFunc : Request -> Z * string * option error)
    (req : Request) : error + string :=
  let '(proxyType, uri, err) := proxyFunc req in
  match err with
  | Some err => inl err
  | None =>
      if negb (Z.eqb proxyType PROXY_HTTP)
      then inl (Errorf "only PROXY_HTTP is currently supported")
      else
        let uri := "http://" +:+ uri in
        match url_Parse_error E uri with
        | Some err => inl err
        | None => inr uri
        end
  end.

(** Prepare a transport. [id] is the identity of the freshly allocated
    [http.Transport]. *)
Definition prepareTransport (E : Env) (id : nat) (options : gmap Z value)
  : error + Transport :=
  try connectTimeoutMS <-
    match options !! OPT_CONNECTTIMEOUT_MS with
    | Some connectTimeoutMS_ =>
        match connectTimeoutMS_ with
        | VInt n => inr n
        | _ => inl (Errorf "OPT_CONNECTTIMEOUT_MS must be int")
        end
    | None =>
        match options !! OPT_CONNECTTIMEOUT with
        | Some connectTimeout_ =>
            match connectTimeout_ with
            | VInt connectTimeout => inr (int_mul connectTimeout 1000)
            | _ => inl (Errorf "OPT_CONNECTTIMEOUT must be int")
            end
        | None => inr 0
        end
    end in
  try timeoutMS <-
    match options !! OPT_TIMEOUT_MS with
    | Some timeoutMS_ =>
        match timeoutMS_ with
        | VInt n => inr n
        | _ => inl (Errorf "OPT_TIMEOUT_MS must be int")
        end
    | None =>
        match options !! OPT_TIMEOUT with
        | Some timeout_ =>
            match timeout_ with
            | VInt timeout => inr (int_mul timeout 1000)
            | _ => inl (Errorf "OPT_TIMEOUT must be int")
            end
        | None => inr 0
        end
    end in
  (* fix connect timeout *)
  let connectTimeoutMS :=
    if (0 <? timeoutMS) && ((timeoutMS <? connectTimeoutMS) || (connectTimeoutMS =? 0)%Z)
    then timeoutMS else connectTimeoutMS in
  (* proxy *)
  try proxy <-
    match options !! OPT_PROXY_FUNC with
    | Some proxyFunc_ =>
        match proxyFunc_ with
        | VProxyFunc proxyFunc => inr (ProxyDynamic proxyFunc)
        | _ => inl (Errorf "OPT_PROXY_FUNC is not a desired function")
        end
    | None =>
        try _ <-
          match options !! OPT_PROXYTYPE with
          | Some proxytype_ =>
              match proxytype_ with
              | VInt proxytype =>
                  if negb (Z.eqb proxytype PROXY_HTTP)
                  then inl (Errorf "OPT_PROXYTYPE must be int, and only PROXY_HTTP is currently supported")
                  else inr tt
              | _ => inl (Errorf "OPT_PROXYTYPE must be int, and only PROXY_HTTP is currently supported")
              end
          | None => inr tt
          end in
        match options !! OPT_PROXY with
        | Some proxy_ =>
            match proxy_ with
            | VString proxy =>
                let proxy := "http://" +:+ proxy in
                match url_Parse_error E proxy with
                | Some err => inl err
                | None => inr (ProxyFixed proxy)
                end
            | _ => inl (Errorf "OPT_PROXY must be string")
            end
        | None => inr ProxyUnset
        end
    end in
  inr {| tr_id := id; tr_connectTimeoutMS := connectTimeoutMS;
         tr_timeoutMS := timeoutMS; tr_Proxy := proxy |}.

(** ** Redirect policy *)

Inductive Verdict : Type :=
| Allow (req : Request)    (* nil is returned; [req] as the policy left it *)
| Deny (err : error).

Definition RedirectPolicy : Type := Request -> list Request -> outcome Verdict.

(** [Header.Get]: the value under the canonical form of the name, the
    empty string when the header is absent. *)
Definition Header_Get (h : gmap string string) (k : string) : string :=
  default "" (h !! CanonicalMIMEHeaderKey k).

(** [req.Header.Set(k, v)]: the value is stored under the canonical form
    of the name. *)
Definition Header_Set (k v : string) (req : Request) : Request :=
  {| req_Method := req_Method req; req_URL := req_URL req;
     req_Header := <[CanonicalMIMEHeaderKey k := v]> (req_Header req);
     req_Body := req_Body req; req_Cookies := req_Cookies req |}.

(** The closure [prepareRedirect] builds when no policy is supplied; it
    captures [followlocation] and [maxredirs]. *)
Definition synthesizedPolicy (followlocation : bool) (maxredirs : Z) : RedirectPolicy :=
  fun req via =>
    (* no follow *)
    if negb followlocation || (maxredirs <=? 0) then
      Done (Deny (CodedError ERR_REDIRECT_POLICY "redirect not allowed"))
    else if maxredirs <=? Z.of_nat (length via) then
      Done (Deny (CodedError ERR_REDIRECT_POLICY
                    ("stopped after " +:+ itoa (length via) +:+ " redirects")))
    else
      match last via with
      | None => Crash "index out of range [-1]"
      | Some last =>
          let useragent := Header_Get (req_Header last) "User-Agent" in
          Done (Allow (if decide (useragent = "") then req
                       else Header_Set "User-Agent" useragent req))
      end.

(** A caller-supplied policy, used as it is. *)
Definition suppliedPolicy (f : Request -> list Request -> option error) : RedirectPolicy :=
  fun req via =>
    match f req via with
    | None => Done (Allow req)
    | Some err => Done (Deny err)
    end.

(** Prepare a redirect policy. *)
Definition prepareRedirect (options : gmap Z value) : error + RedirectPolicy :=
  match options !! OPT_REDIRECT_POLICY with
  | Some redirectPolicyOption =>
      match redirectPolicyOption with
      | VRedirectFunc f => inr (suppliedPolicy f)
      | _ => inl (Errorf "OPT_REDIRECT_POLICY is not a desired function")
      end
  | None =>
      try followlocation <-
        match options !! OPT_FOLLOWLOCATION with
        | Some followlocation_ =>
            match followlocation_ with
            | VBool b => inr b
            | _ => inl (Errorf "OPT_FOLLOWLOCATION must be bool")
            end
        | None => inr false
        end in
      try maxredirs <-
        match options !! OPT_MAXREDIRS with
        | Some maxredirs_ =>
            match maxredirs_ with
            | VInt n => inr n
            | _ => inl (Errorf "OPT_MAXREDIRS must be int")
            end
        | None => inr 0
        end in
      inr (synthesizedPolicy followlocation maxredirs)
  end.

(** ** Cookie jar *)

(** Prepare a cookie jar. [id] is the identity [cookiejar.New] gives to a
    new jar; [None] is the nil jar. *)
Definition prepareJar (id : nat) (options : gmap Z value) : error + option Jar :=
  match options !! OPT_COOKIEJAR with
  | Some optCookieJar_ =>
      match optCookieJar_ with
      | VBool optCookieJar =>
          if optCookieJar then inr (Some {| jar_id := id |}) else inr None
      | VJar optCookieJar => inr (Some optCookieJar)
      | _ => inl (Errorf "invalid cookiejar")
      end
  | None => inr None
  end.

(** ** Request *)

(** Prepare a request. *)
Definition prepareRequest (E : Env) (method url : string)
    (headers : gmap string string) (body : Body) (options : gmap Z value)
  : error + Request :=
  match NewRequest_error E method url with
  | Some err => inl err
  | None =>
      (* http.NewRequest: the empty method stands for GET *)
      let req := {| req_Method := if decide (method = "") then "GET" else method;
                    req_URL := url; req_Header := ∅;
                    req_Body := body; req_Cookies := [] |} in
      (* OPT_REFERER *)
      let req :=
        match options !! OPT_REFERER with
        | Some (VString refererStr) => Header_Set "Referer" refererStr req
        | _ => req
        end in
      (* OPT_USERAGENT *)
      let req :=
        match options !! OPT_USERAGENT with
        | Some (VString useragentStr) => Header_Set "User-Agent" useragentStr req
        | _ => req
        end in
      inr (foldl (fun r kv => Header_Set kv.1 kv.2 r) req (range_headers E headers))
  end.

(** ** The client *)

(** A [sync.Mutex]: held or free. *)
Inductive Mutex : Type := Locked | Unlocked.

Record Client : Type := mkClient {
  Options : option (gmap Z value);            (* default options of this client *)
  Headers : option (gmap string string);      (* default headers of this client *)
  oneTimeOptions : option (gmap Z value);     (* options of current request *)
  oneTimeHeaders : option (gmap string string); (* headers of current request *)
  oneTimeCookies : list Cookie;               (* cookies of current request *)
  transport : option Transport;               (* global transport, nil when None *)
  jar : option Jar;                           (* global cookie jar, nil when None *)
  reuseTransport : bool;
  reuseJar : bool;
  lock : option Mutex                         (* nil when None *)
}.

(** Create an HTTP client. *)
Definition NewClient : Client :=
  {| Options := None; Headers := None;
     oneTimeOptions := None; oneTimeHeaders := None; oneTimeCookies := [];
     transport := None; jar := None;
     reuseTransport := true; reuseJar := true;
     lock := None |}.

(** The state a method runs in: the receiver and the next unused object
    identity. *)
Record World : Type := mkWorld { self : Client; next_id : nat }.

Definition M (A : Type) : Type := World -> outcome (A * World).

Definition ret {A} (a : A) : M A := fun w => Done (a, w).

Definition bind {A B} (m : M A) (k : A -> M B) : M B :=
  fun w =>
    match m w with
    | Done (a, w') => k a w'
    | Crash msg => Crash msg
    | Blocks => Blocks
    end.

Notation "'do' x <- e ; k" := (bind e (fun x => k))
  (at level 10, x name, e at level 100, k at level 200).
Notation "'exec' e ; k" := (bind e (fun _ => k))
  (at level 10, e at level 100, k at level 200).

Definition getClient : M Client := fun w => Done (self w, w).

Definition update (f : Client -> Client) : M unit :=
  fun w => Done (tt, {| self := f (self w); next_id := next_id w |}).

Definition crash {A} (msg : string) : M A := fun _ => Crash msg.

Definition blocks {A} : M A := fun _ => Blocks.

(** Allocation of a new object. *)
Definition fresh : M nat :=
  fun w => Done (next_id w, {| self := self w; next_id := S (next_id w) |}).

(** Field assignments. *)
Definition set_Options v (c : Client) : Client :=
  mkClient v (Headers c) (oneTimeOptions c) (oneTimeHeaders c) (oneTimeCookies c)
           (transport c) (jar c) (reuseTransport c) (reuseJar c) (lock c).
Definition set_Headers v (c : Client) : Client :=
  mkClient (Options c) v (oneTimeOptions c) (oneTimeHeaders c) (oneTimeCookies c)
           (transport c) (jar c) (reuseTransport c) (reuseJar c) (lock c).
Definition set_oneTimeOptions v (c : Client) : Client :=
  mkClient (Options c) (Headers c) v (oneTimeHeaders c) (oneTimeCookies c)
           (transport c) (jar c) (reuseTransport c) (reuseJar c) (lock c).
Definition set_oneTimeHeaders v (c : Client) : Client :=
  mkClient (Options c) (Headers c) (oneTimeOptions c) v (oneTimeCookies c)
           (transport c) (jar c) (reuseTransport c) (reuseJar c) (lock c).
Definition set_oneTimeCookies v (c : Client) : Client :=
  mkClient (Options c) (Headers c) (oneTimeOptions c) (oneTimeHeaders c) v
           (transport c) (jar c) (reuseTransport c) (reuseJar c) (lock c).
Definition set_transport v (c : Client) : Client :=
  mkClient (Options c) (Headers c) (oneTimeOptions c) (oneTimeHeaders c) (oneTimeCookies c)
           v (jar c) (reuseTransport c) (reuseJar c) (lock c).
Definition set_jar v (c : Client) : Client :=
  mkClient (Options c) (Headers c) (oneTimeOptions c) (oneTimeHeaders c) (oneTimeCookies c)
           (transport c) v (reuseTransport c) (reuseJar c) (lock c).
Definition set_reuseTransport v (c : Client) : Client :=
  mkClient (Options c) (Headers c) (oneTimeOptions c) (oneTimeHeaders c) (oneTimeCookies c)
           (transport c) (jar c) v (reuseJar c) (lock c).
Definition set_reuseJar v (c : Client) : Client :=
  mkClient (Options c) (Headers c) (oneTimeOptions c) (oneTimeHeaders c) (oneTimeCookies c)
           (transport c) (jar c) (reuseTransport c) v (lock c).
Definition set_lock v (c : Client) : Client :=
  mkClient (Options c) (Headers c) (oneTimeOptions c) (oneTimeHeaders c) (oneTimeCookies c)
           (transport c) (jar c) (reuseTransport c) (reuseJar c) v.

(** Set default options and headers. A nil default map is replaced by the
    argument, otherwise the argument's entries are assigned into it. *)
Definition Defaults (options : option (gmap Z value))
    (headers : option (gmap string string)) : M unit :=
  do client <- getClient;
  (* merge options *)
  exec (match Options client with
      | None => update (set_Options options)
      | Some m => update (set_Options (Some (range_assign m options)))
      end);
  (* merge headers *)
  match Headers client with
  | None => update (set_Headers headers)
  | Some m => update (set_Headers (Some (range_assign m headers)))
  end.

(** Begin marks the beginning of a request. *)
Definition Begin : M unit :=
  do client <- getClient;
  match default Unlocked (lock client) with
  | Unlocked => update (set_lock (Some Locked))
  | Locked => blocks
  end.

(** Reset the client state so that other requests can begin. Unlocking a
    mutex that is not held is a fatal run-time error. *)
Definition reset : M unit :=
  exec update (set_oneTimeOptions None);
  exec update (set_oneTimeHeaders None);
  exec update (set_oneTimeCookies []);
  exec update (set_reuseTransport true);
  exec update (set_reuseJar true);
  do client <- getClient;
  match lock client with
  | None => ret tt
  | Some Locked => update (set_lock (Some Unlocked))
  | Some Unlocked => crash "sync: unlock of unlocked mutex"
  end.

(** Temporarily specify an option of the current request. *)
Definition WithOption (option : Z) (val : value) : M unit :=
  exec update (fun c => set_oneTimeOptions (Some (<[option := val]> (entries (oneTimeOptions c)))) c);
  (* Conditions we cannot reuse the transport. *)
  exec (if negb (hasOption option transportOptions)
      then update (set_reuseTransport false) else ret tt);
  (* Conditions we cannot reuse the cookie jar. *)
  if negb (hasOption option jarOptions)
  then update (set_reuseJar false) else ret tt.

(** Temporarily specify multiple options of the current request. *)
Definition WithOptions (options : option (gmap Z value)) : M unit :=
  map_fold (fun option val rest => exec rest; WithOption option val) (ret tt) (entries options).

(** Temporarily specify a header of the current request. *)
Definition WithHeader (option : string) (val : string) : M unit :=
  update (fun c => set_oneTimeHeaders (Some (<[option := val]> (entries (oneTimeHeaders c)))) c).

(** Temporarily specify multiple headers of the current request. *)
Definition WithHeaders (headers : option (gmap string string)) : M unit :=
  map_fold (fun header val rest => exec rest; WithHeader header val) (ret tt) (entries headers).

(** Specify cookies of the current request. *)
Definition WithCookie (cookies : list Cookie) : M unit :=
  update (fun c => set_oneTimeCookies ((oneTimeCookies c ++ cookies)%list) c).

(** The [http.Client] assembled for one request. *)
Record HttpClient : Type := mkHttpClient {
  hc_Transport : Transport;
  hc_CheckRedirect : RedirectPolicy;
  hc_Jar : option Jar
}.

(** What [Do] returns. The network exchange itself is outside the
    embedding: [Issued] stands for the final
    [res, err := httpClient.Do(req); return &Response{res}, err], with the
    cookies that were handed to the jar ([jar.SetCookies(req.URL, cookies)])
    just before; without a jar the cookies are on the request. *)
Inductive Reply : Type :=
| Failed (err : error)                                  (* return nil, err *)
| Issued (httpClient : HttpClient) (req : Request) (jarCookies : list Cookie).

(** [req.AddCookie(c)]: the cookie is appended to the [Cookie] header of
    the request, after ["; "] when the header is not empty. *)
Definition AddCookie (E : Env) (c : Cookie) (req : Request) : Request :=
  let s := sanitizeCookieName E (cookie_Name c) +:+ "="
           +:+ sanitizeCookieValue E (cookie_Value c) in
  let old := Header_Get (req_Header req) "Cookie" in
  let req := Header_Set "Cookie" (if decide (old = "") then s else old +:+ "; " +:+ s) req in
  {| req_Method := req_Method req; req_URL := req_URL req;
     req_Header := req_Header req; req_Body := req_Body req;
     req_Cookies := (req_Cookies req ++ [c])%list |}.

(** [for _, cookie := range cookies { req.AddCookie(cookie) }] *)
Definition AddCookies (E : Env) (cookies : list Cookie) (req : Request) : Request :=
  foldl (fun r c => AddCookie E c r) req cookies.

(** Start a request, and get the response. *)
Definition Do (E : Env) (method url : string)
    (headers : option (gmap string string)) (body : Body) : M Reply :=
  do client <- getClient;
  let options := mergeOptions [Some defaultOptions; Options client; oneTimeOptions client] in
  let cookies := oneTimeCookies client in
  let headers := mergeHeaders [Headers client; oneTimeHeaders client; headers] in
  (* transport *)
  do transport_ <-
    (match transport client, reuseTransport client with
     | Some cached, true => ret (inr cached)
     | _, _ =>
         do id <- fresh;
         match prepareTransport E id options with
         | inl err => ret (inl err)
         | inr built =>
             exec (if reuseTransport client
                   then update (set_transport (Some built)) else ret tt);
             ret (inr built)
         end
     end);
  match transport_ with
  | inl err => exec reset; ret (Failed err)
  | inr transport_ =>
      (* jar *)
      do jar_ <-
        (match jar client, reuseJar client with
         | Some cached, true => ret (inr (Some cached))
         | _, _ =>
             do id <- fresh;
             match prepareJar id options with
             | inl err => ret (inl err)
             | inr built =>
                 exec (if reuseJar client
                       then update (set_jar built) else ret tt);
                 ret (inr built)
             end
         end);
      match jar_ with
      | inl err => exec reset; ret (Failed err)
      | inr jar_ =>
          (* release lock *)
          exec reset;
          match prepareRedirect options with
          | inl err => ret (Failed err)
          | inr redirect =>
              let httpClient := {| hc_Transport := transport_;
                                   hc_CheckRedirect := redirect;
                                   hc_Jar := jar_ |} in
              match prepareRequest E method url headers body options with
              | inl err => ret (Failed err)
              | inr req =>
                  match jar_ with
                  | Some _ => ret (Issued httpClient req cookies)
                  | None => ret (Issued httpClient (AddCookies E cookies req) [])
                  end
              end
          end
      end
  end.

(** The GET request *)
Definition Get (E : Env) (url : string) (params : Values) : M Reply :=
  let url := addQuery url params in
  Do E "GET" url None NoBody.

(** Add a file to a multipart writer. Writing to the in-memory buffer
    cannot fail, so the error is that of opening or reading the file. *)
Definition addFormFile (E : Env) (name path : string) : error + Part :=
  match os_Open E path with
  | inl err => inl err
  | inr content => inr (FilePart name (filepath_Base E path) content)
  end.

(** [name[1:]] for a non-empty [name]. *)
Definition drop_first (name : string) : string :=
  match name with
  | EmptyString => EmptyString
  | String _ rest => rest
  end.

(** The [range] loop of [PostMultipart] over the entries in visiting
    order: the parts written, or the error that ends the method early. *)
Fixpoint writeParts (E : Env) (params : Values) : outcome (error + list Part) :=
  match params with
  | [] => Done (inr [])
  | (name, values) :: rest =>
      match String.get 0 name with
      | None => Crash "index out of range [0] with length 0"
      | Some c =>
          if Ascii.eqb c "@"%char then
            match values with
            | [] => Crash "index out of range [0] with length 0"
            | path :: _ =>
                match addFormFile E (drop_first name) path with
                | inl err => Done (inl err)
                | inr part =>
                    match writeParts E rest with
                    | Done (inr parts) => Done (inr (part :: parts))
                    | other => other
                    end
                end
            end
          else
            match writeParts E rest with
            | Done (inr parts) => Done (inr (((FieldPart name <$> values) ++ parts)%list))
            | other => other
            end
      end
  end.

(** Post with the request encoded as "multipart/form-data". *)
Definition PostMultipart (E : Env) (url : string) (params : Values) : M Reply :=
  match writeParts E params with
  | Crash msg => crash msg
  | Blocks => blocks
  | Done (inl err) => ret (Failed err)
  | Done (inr parts) =>
      let headers : gmap string string :=
        {[ "Content-Type" := "multipart/form-data; boundary=" +:+ multipart_Boundary E ]} in
      Do E "POST" url (Some headers) (MultipartBody parts)
  end.

(** The POST request. [params] lists the parameter map in the order
    [checkParamFile] visits it, [again] lists the same map in the order the
    loop of [PostMultipart] visits it. *)
Definition Post (E : Env) (url : string) (params again : Values) : M Reply :=
  match checkParamFile params with
  | Crash msg => crash msg
  | Blocks => blocks
  | Done true => PostMultipart E url again
  | Done false =>
      let headers : gmap string string :=
        {[ "Content-Type" := "application/x-www-form-urlencoded" ]} in
      let body := ReaderBody (Encode params) in
      Do E "POST" url (Some headers) body
  end.

(** ** The package-level facade *)

Module Facade.

(** [new(Client)]: the zero value of the struct. *)
Definition new_Client : Client :=
  {| Options := None; Headers := None;
     oneTimeOptions := None; oneTimeHeaders := None; oneTimeCookies := [];
     transport := None; jar := None;
     reuseTransport := false; reuseJar := false;
     lock := None |}.

(** The package variable [client] once [init] has run. *)
Definition client : Client := new_Client.

(** The free functions forward to the methods of [client]; run them in a
    world whose receiver is [client]. *)
Definition start : World := {| self := client; next_id := 0 |}.

Definition Defaults := Defaults.
Definition Begin := Begin.
Definition WithOption := WithOption.
Definition WithOptions := WithOptions.
Definition WithHeader := WithHeader.
Definition WithHeaders := WithHeaders.
Definition WithCookie := WithCookie.
Definition Do := Do.
Definition Get := Get.
Definition Post := Post.
Definition PostMultipart := PostMultipart.

End Facade.

(** The world of a client made by [NewClient]. *)
Definition start : World := {| self := NewClient; next_id := 0 |}.

(** ** Concrete collaborators used in the examples

    Every request and URL is accepted; the only file is [/etc/hosts];
    cookie names and values need no sanitizing. *)
Definition plainEnv : Env :=
  {| NewRequest_error := fun _ _ => None;
     url_Parse_error := fun _ => None;
     os_Open := fun path =>
       if decide (path = "/etc/hosts") then inr "127.0.0.1 localhost"
       else inl (ForeignError "os" ("open " +:+ path +:+ ": no such file or directory"));
     filepath_Base := fun path => path;
     multipart_Boundary := "boundary";
     sanitizeCookieName := fun name => name;
     sanitizeCookieValue := fun val => val;
     range_headers := map_to_list;
     range_headers_visits := fun m => Permutation_refl (map_to_list m) |}.

(** ** Vocabulary of the statements *)

(** The milliseconds an option pair asks for: the millisecond key when it
    is set, else the whole-second key times 1000, else 0 for "not set". *)
Definition requestedMS (options : gmap Z value) (key_ms key_s : Z) : Z :=
  match options !! key_ms with
  | Some (VInt n) => n
  | Some _ => 0
  | None =>
      match options !! key_s with
      | Some (VInt n) => int_mul n 1000
      | _ => 0
      end
  end.

Definition is_int (v : value) : bool :=
  match v with VInt _ => true | _ => false end.

Definition is_string (v : value) : bool :=
  match v with VString _ => true | _ => false end.

Definition is_bool (v : value) : bool :=
  match v with VBool _ => true | _ => false end.

Definition is_proxy_func (v : value) : bool :=
  match v with VProxyFunc _ => true | _ => false end.

Definition is_redirect_func (v : value) : bool :=
  match v with VRedirectFunc _ => true | _ => false end.

Definition is_bool_or_jar (v : value) : bool :=
  match v with VBool _ | VJar _ => true | _ => false end.

(** The result is a configuration error made by [fmt.Errorf]. *)
Definition config_error {A} (r : error + A) : Prop :=
  exists msg, r = inl (Errorf msg).

(** The connect-timeout keys pass the type checks of [prepareTransport]. *)
Definition connect_keys_typed (options : gmap Z value) : bool :=
  match options !! OPT_CONNECTTIMEOUT_MS with
  | Some v => is_int v
  | None =>
      match options !! OPT_CONNECTTIMEOUT with
      | Some v => is_int v
      | None => true
      end
  end.

(** The parameter name starts with the file marker [@]. *)
Definition is_file_param (name : string) : bool :=
  match String.get 0 name with
  | Some c => Ascii.eqb c "@"%char
  | None => false
  end.

Definition index_panic : string := "index out of range [0] with length 0".

(** The world a computation leaves behind (the given one if it does not
    return). *)
Definition after {A} (m : M A) (w : World) : World :=
  match m w with
  | Done (_, w') => w'
  | _ => w
  end.

(** The transport and the jar a request was issued with. *)
Definition used_transport (o : outcome (Reply * World)) : option Transport :=
  match o with
  | Done (Issued httpClient _ _, _) => Some (hc_Transport httpClient)
  | _ => None
  end.

Definition used_jar (o : outcome (Reply * World)) : option Jar :=
  match o with
  | Done (Issued httpClient _ _, _) => hc_Jar httpClient
  | _ => None
  end.

(** A mutex pointer after [Unlock]. *)
Definition released (l : option Mutex) : option Mutex :=
  match l with
  | None => None
  | Some _ => Some Unlocked
  end.

(** ** Reading the jar

    [jarCookies j uri] stands for what the jar answers: [uri] is parsed
    (the parse error is dropped by the code) and the jar is asked for the
    cookies of the result. *)

(** Get cookies of the client jar. *)
Definition Cookies (jarCookies : Jar -> string -> outcome (list Cookie))
    (client : Client) (uri : string) : outcome (list Cookie) :=
  match jar client with
  | Some j => jarCookies j uri
  | None => Done []
  end.

(** Get cookie values (k-v map) of the client jar. *)
Definition CookieValues (jarCookies : Jar -> string -> outcome (list Cookie))
    (client : Client) (url : string) : outcome (gmap string string) :=
  match Cookies jarCookies client url with
  | Done found =>
      Done (foldl (fun cookies cookie =>
                     <[cookie_Name cookie := cookie_Value cookie]> cookies) ∅ found)
  | Crash msg => Crash msg
  | Blocks => Blocks
  end.

(** The loop of [CookieValue]: the value of the first cookie of that name. *)
Fixpoint first_named (found : list Cookie) (key : string) : string :=
  match found with
  | [] => ""
  | cookie :: rest =>
      if decide (cookie_Name cookie = key) then cookie_Value cookie
      else first_named rest key
  end.

(** Get cookie value of a specified cookie name. *)
Definition CookieValue (jarCookies : Jar -> string -> outcome (list Cookie))
    (client : Client) (url key : string) : outcome string :=
  match Cookies jarCookies client url with
  | Done found => Done (first_named found key)
  | Crash msg => Crash msg
  | Blocks => Blocks
  end.

(** ** Sequences of method calls on one client *)

Inductive Call : Type :=
| CallDefaults (options : option (gmap Z value)) (headers : option (gmap string string))
| CallBegin
| CallWithOption (option : Z) (val : value)
| CallWithOptions (options : option (gmap Z value))
| CallWithHeader (option val : string)
| CallWithHeaders (headers : option (gmap string string))
| CallWithCookie (cookies : list Cookie)
| CallDo (method url : string) (headers : option (gmap string string)) (body : Body)
| CallGet (url : string) (params : Values)
| CallPost (url : string) (params again : Values)
| CallPostMultipart (url : string) (params : Values).

(** One call; the configuring methods return the client itself, the
    request methods a reply. *)
Definition call (E : Env) (c : Call) : M (option Reply) :=
  match c with
  | CallDefaults options headers => exec Defaults options headers; ret None
  | CallBegin => exec Begin; ret None
  | CallWithOption option val => exec WithOption option val; ret None
  | CallWithOptions options => exec WithOptions options; ret None
  | CallWithHeader option val => exec WithHeader option val; ret None
  | CallWithHeaders headers => exec WithHeaders headers; ret None
  | CallWithCookie cookies => exec WithCookie cookies; ret None
  | CallDo method url headers body => do r <- Do E method url headers body; ret (Some r)
  | CallGet url params => do r <- Get E url params; ret (Some r)
  | CallPost url params again => do r <- Post E url params again; ret (Some r)
  | CallPostMultipart url params => do r <- PostMultipart E url params; ret (Some r)
  end.

(** The calls one after the other; the replies of the request methods in
    order. *)
Fixpoint calls (E : Env) (cs : list Call) : M (list Reply) :=
  match cs with
  | [] => ret []
  | c :: rest =>
      do r <- call E c;
      do rs <- calls E rest;
      ret ((option_list r ++ rs)%list)
  end.

(** The transport a reply was issued through, if it was issued. *)
Definition reply_transport (r : Reply) : option Transport :=
  match r with
  | Issued httpClient _ _ => Some (hc_Transport httpClient)
  | Failed _ => None
  end.

(** The value of the last element of a list of cookies that bears the
    name. *)
Definition last_named (found : list Cookie) (key : string) : option string :=
  cookie_Value <$> last (filter (fun cookie => cookie_Name cookie = key) found).

(** A parameter that the loop of [PostMultipart] passes without leaving:
    a plain field, or a file part with a path that can be opened. *)
Definition passes (E : Env) (p : string * list string) : Prop :=
  p.1 <> ""
  /\ (is_file_param p.1 = true ->
      exists path more content, p.2 = path :: more /\ os_Open E path = inr content).

(** The header an option contributes to a request: [OPT_USERAGENT] and
    [OPT_REFERER], when they hold a string. *)
Definition option_header (options : gmap Z value) (k : string) : option string :=
  if decide (k = "User-Agent") then
    match options !! OPT_USERAGENT with
    | Some (VString s) => Some s
    | _ => None
    end
  else if decide (k = "Referer") then
    match options !! OPT_REFERER with
    | Some (VString s) => Some s
    | _ => None
    end
  else None.

(** The cached transport and jar and the transport flag are the same in
    both worlds. *)
Definition keeps_cache (w w' : World) : Prop :=
  transport (self w') = transport (self w)
  /\ jar (self w') = jar (self w)
  /\ reuseTransport (self w') = reuseTransport (self w).

(** The overall-timeout keys pass the type checks of [prepareTransport]. *)
Definition timeout_keys_typed (options : gmap Z value) : bool :=
  match options !! OPT_TIMEOUT_MS with
  | Some v => is_int v
  | None =>
      match options !! OPT_TIMEOUT with
      | Some v => is_int v
      | None => true
      end
  end.

(** [OPT_PROXYTYPE] passes its check: absent, or the int [PROXY_HTTP]. *)
Definition proxytype_accepted (options : gmap Z value) : bool :=
  match options !! OPT_PROXYTYPE with
  | None => true
  | Some (VInt n) => n =? PROXY_HTTP
  | Some _ => false
  end.

(** [OPT_FOLLOWLOCATION] passes its check: absent, or a bool. *)
Definition followlocation_typed (options : gmap Z value) : bool :=
  match options !! OPT_FOLLOWLOCATION with
  | None => true
  | Some v => is_bool v
  end.

(** The value that a sequence of [Header.Set] calls, one per visited
    entry, leaves under the canonical name [K]: that of the last visited
    entry whose name has this canonical form. *)
Definition last_set (visited : list (string * string)) (K : string) : option string :=
  snd <$> last (filter (fun kv => CanonicalMIMEHeaderKey kv.1 = K) visited).

(** Every name bound in the header map is in canonical form. *)
Definition canonical_names (headers : gmap string string) : Prop :=
  forall k, is_Some (headers !! k) -> CanonicalMIMEHeaderKey k = k.

(** * Properties *)

(** ** Merging of layers *)

Section Merge.
Context {K : Type} `{Countable K} {V : Type}.
Implicit Types (merged : gmap K V) (piece layer : option (gmap K V)).
Implicit Types (layers below above : list (option (gmap K V))).

(** The assignment loop computes the union that prefers the piece. *)
Lemma range_assign_union merged piece :
  range_assign merged piece = entries piece ∪ merged.
Proof.
  unfold range_assign.
  apply (map_fold_weak_ind (fun r m => r = m ∪ merged)).
  - by rewrite (left_id_L ∅ (∪)).
  - intros i x m r _ ->. by rewrite insert_union_l.
Qed.

(** The loop gives the same map whatever order the runtime visits the
    entries in. *)
Lemma range_assign_any_order merged piece (visited : list (K * V)) :
  visited ≡ₚ map_to_list (entries piece) ->
  foldl (fun acc kv => <[kv.1 := kv.2]> acc) merged visited
  = range_assign merged piece.
Proof.
  intros Hperm. rewrite range_assign_union.
  assert (Hnodup : NoDup visited.*1).
  { rewrite Hperm. apply NoDup_fst_map_to_list. }
  assert (Hmap : entries piece = list_to_map visited).
  { rewrite <- (list_to_map_to_list (entries piece)).
    symmetry. by apply list_to_map_proper. }
  rewrite Hmap. clear Hperm Hmap.
  revert merged. induction visited as [|[k v] rest IH]; intros merged; simpl.
  - by rewrite (left_id_L ∅ (∪)).
  - apply NoDup_cons in Hnodup as [Hk Hrest].
    rewrite IH by done.
    rewrite <- insert_union_r by (by apply not_elem_of_list_to_map_1).
    by rewrite insert_union_l.
Qed.

Lemma range_assign_lookup merged piece k :
  range_assign merged piece !! k
  = match entries piece !! k with Some v => Some v | None => merged !! k end.
Proof.
  rewrite range_assign_union, lookup_union.
  destruct (entries piece !! k), (merged !! k); done.
Qed.

Lemma foldl_range_assign_unbound layers merged k :
  Forall (fun l => entries l !! k = None) layers ->
  foldl range_assign merged layers !! k = merged !! k.
Proof.
  intros Hall. revert merged.
  induction Hall as [|l ls Hl _ IH]; intros merged; simpl; [done|].
  by rewrite IH, range_assign_lookup, Hl.
Qed.

Lemma foldl_range_assign_last below layer above merged k v :
  entries layer !! k = Some v ->
  Forall (fun l => entries l !! k = None) above ->
  foldl range_assign merged (below ++ layer :: above) !! k = Some v.
Proof.
  intros Hk Habove. rewrite foldl_app. simpl.
  rewrite foldl_range_assign_unbound by done.
  by rewrite range_assign_lookup, Hk.
Qed.
End Merge.

(** C4. Layers are given lowest precedence first. For options and for
    headers alike: a key bound by some layer and by no layer after it is
    bound in the merged map to that layer's value (the last layer that
    defines the key wins), and a key that no layer binds is unbound in the
    merged map. The merge is a total function returning a map: it has no
    error result. *)
Theorem merge_right_biased :
  (forall below layer above (k : Z) v,
      entries layer !! k = Some v ->
      Forall (fun l => entries l !! k = None) above ->
      mergeOptions (below ++ layer :: above) !! k = Some v)
  /\ (forall layers (k : Z),
      Forall (fun l => entries l !! k = None) layers ->
      mergeOptions layers !! k = None)
  /\ (forall below layer above (k : string) v,
      entries layer !! k = Some v ->
      Forall (fun l => entries l !! k = None) above ->
      mergeHeaders (below ++ layer :: above) !! k = Some v)
  /\ (forall layers (k : string),
      Forall (fun l => entries l !! k = None) layers ->
      mergeHeaders layers !! k = None).
Proof.
  unfold mergeOptions, mergeHeaders. split; [|split; [|split]].
  - intros. by apply foldl_range_assign_last.
  - intros. by rewrite foldl_range_assign_unbound.
  - intros. by apply foldl_range_assign_last.
  - intros. by rewrite foldl_range_assign_unbound.
Qed.

(** The three layers of a request: a one-time value hides the client
    default, which hides the library default. *)
Lemma merge_right_biased_witness :
  mergeOptions ([Some defaultOptions; Some {[OPT_MAXREDIRS := VInt 5]}]
                ++ Some {[OPT_MAXREDIRS := VInt 2]} :: [None])
    !! OPT_MAXREDIRS = Some (VInt 2)
  /\ mergeHeaders ([Some {["Accept" := "a"]}] ++ Some {["Accept" := "b"]} :: [])
    !! "Accept" = Some "b".
Proof.
  split.
  - apply (proj1 merge_right_biased); [reflexivity|].
    repeat constructor.
  - apply (proj1 (proj2 (proj2 merge_right_biased))); [reflexivity|].
    constructor.
Defined.

(** ** Transport: timeouts *)

Lemma prepareTransport_timeouts E id options tr :
  prepareTransport E id options = inr tr ->
  let c := requestedMS options OPT_CONNECTTIMEOUT_MS OPT_CONNECTTIMEOUT in
  let t := requestedMS options OPT_TIMEOUT_MS OPT_TIMEOUT in
  tr_id tr = id
  /\ tr_timeoutMS tr = t
  /\ tr_connectTimeoutMS tr
     = if (0 <? t) && ((t <? c) || (c =? 0)) then t else c.
Proof.
  unfold prepareTransport, requestedMS, ebind. intros Hok.
  destruct (options !! OPT_CONNECTTIMEOUT_MS) as [[]|];
    try discriminate Hok;
    destruct (options !! OPT_CONNECTTIMEOUT) as [[]|];
    try discriminate Hok;
    destruct (options !! OPT_TIMEOUT_MS) as [[]|];
    try discriminate Hok;
    destruct (options !! OPT_TIMEOUT) as [[]|];
    try discriminate Hok;
    repeat (match type of Hok with
            | context [match ?x with _ => _ end] => destruct x; try discriminate Hok
            end);
    injection Hok as <-; simpl; auto.
Qed.

(** C2. Whenever [prepareTransport] builds a transport, with [c] and [t]
    the connect and overall timeouts the options ask for (0 = not set): if
    the overall timeout is set and the connect timeout is not set or exceeds
    it, the transport dials with a connect timeout equal to the overall
    timeout; in every other case the connect timeout stays [c].
    Concretely: timeout 5000 ms with connect timeout 8000 ms dials with
    5000 ms; timeout 5000 ms alone dials with 5000 ms; connect timeout
    3000 ms alone dials with 3000 ms. *)
Theorem connect_timeout_clamp :
  (forall E id options tr,
      prepareTransport E id options = inr tr ->
      let c := requestedMS options OPT_CONNECTTIMEOUT_MS OPT_CONNECTTIMEOUT in
      let t := requestedMS options OPT_TIMEOUT_MS OPT_TIMEOUT in
      (0 < t -> c = 0 \/ t < c ->
         tr_connectTimeoutMS tr = t /\ dial_call (Dial tr) = DialTimeout t)
      /\ (~ (0 < t /\ (c = 0 \/ t < c)) -> tr_connectTimeoutMS tr = c))
  /\ (forall E id, exists tr,
      prepareTransport E id
        (<[OPT_TIMEOUT_MS := VInt 5000]> {[OPT_CONNECTTIMEOUT_MS := VInt 8000]})
      = inr tr /\ dial_call (Dial tr) = DialTimeout 5000)
  /\ (forall E id, exists tr,
      prepareTransport E id {[OPT_TIMEOUT_MS := VInt 5000]} = inr tr
      /\ dial_call (Dial tr) = DialTimeout 5000)
  /\ (forall E id, exists tr,
      prepareTransport E id {[OPT_CONNECTTIMEOUT_MS := VInt 3000]} = inr tr
      /\ dial_call (Dial tr) = DialTimeout 3000
      /\ dial_deadline (Dial tr) = None).
Proof.
  split; [|repeat split; intros; eexists; vm_compute; eauto].
  intros E id options tr Hok c t.
  destruct (prepareTransport_timeouts _ _ _ _ Hok) as (_ & Ht & Hc).
  fold c t in Ht, Hc. split.
  - intros Hpos Hclamp.
    assert (Hcond : (0 <? t) && ((t <? c) || (c =? 0)) = true).
    { apply andb_true_iff. split; [by apply Z.ltb_lt|].
      apply orb_true_iff. destruct Hclamp as [->|Hlt]; [by right|].
      left. by apply Z.ltb_lt. }
    rewrite Hcond in Hc. split; [done|].
    unfold Dial. simpl. rewrite Hc.
    by destruct (Z.ltb_spec 0 t); [|lia].
  - intros Hno.
    destruct ((0 <? t) && ((t <? c) || (c =? 0))) eqn:Hcond; [|done].
    exfalso. apply Hno.
    apply andb_true_iff in Hcond as [Hpos Hor].
    apply Z.ltb_lt in Hpos. split; [done|].
    apply orb_true_iff in Hor as [Hlt|Heq].
    + right. by apply Z.ltb_lt.
    + left. by apply Z.eqb_eq.
Qed.

(** Whole-second options: a 5 s timeout clamps a 8 s connect timeout. *)
Lemma connect_timeout_clamp_witness :
  let options : gmap Z value :=
    <[OPT_TIMEOUT := VInt 5]> {[OPT_CONNECTTIMEOUT := VInt 8]} in
  let tr := mkTransport 0 5000 5000 ProxyUnset in
  prepareTransport plainEnv 0 options = inr tr
  /\ tr_connectTimeoutMS tr = 5000
  /\ dial_call (Dial tr) = DialTimeout 5000.
Proof.
  intros options tr.
  assert (Hok : prepareTransport plainEnv 0 options = inr tr) by reflexivity.
  split; [exact Hok|].
  apply (proj1 (proj1 connect_timeout_clamp plainEnv 0%nat options tr Hok)).
  - vm_compute. reflexivity.
  - right. vm_compute. reflexivity.
Defined.

(** ** Redirect policy *)

Lemma synthesizedPolicy_not_allowed followlocation maxredirs req via :
  followlocation = false \/ maxredirs <= 0 ->
  synthesizedPolicy followlocation maxredirs req via
  = Done (Deny (CodedError ERR_REDIRECT_POLICY "redirect not allowed")).
Proof.
  intros Hno. unfold synthesizedPolicy.
  assert (Hcond : negb followlocation || (maxredirs <=? 0) = true).
  { apply orb_true_iff. destruct Hno as [->|Hle]; [by left|].
    right. by apply Z.leb_le. }
  by rewrite Hcond.
Qed.

Lemma synthesizedPolicy_stopped maxredirs req via :
  0 < maxredirs -> maxredirs <= Z.of_nat (length via) ->
  synthesizedPolicy true maxredirs req via
  = Done (Deny (CodedError ERR_REDIRECT_POLICY
                  ("stopped after " +:+ itoa (length via) +:+ " redirects"))).
Proof.
  intros Hpos Hreach. unfold synthesizedPolicy. simpl.
  destruct (Z.leb_spec maxredirs 0); [lia|].
  by destruct (Z.leb_spec maxredirs (Z.of_nat (length via))); [|lia].
Qed.

Lemma synthesizedPolicy_allows maxredirs req via :
  0 < maxredirs -> Z.of_nat (length via) < maxredirs -> via <> [] ->
  exists last_,
    last via = Some last_
    /\ synthesizedPolicy true maxredirs req via
       = Done (Allow (if decide (Header_Get (req_Header last_) "User-Agent" = "")
                      then req
                      else Header_Set "User-Agent"
                             (Header_Get (req_Header last_) "User-Agent") req)).
Proof.
  intros Hpos Hbelow Hvia. unfold synthesizedPolicy. simpl.
  destruct (Z.leb_spec maxredirs 0); [lia|].
  destruct (Z.leb_spec maxredirs (Z.of_nat (length via))); [lia|].
  destruct (last via) as [last_|] eqn:Hlast.
  - by exists last_.
  - by apply last_None in Hlast.
Qed.

(** C5. Without a supplied policy, and with follow-location [fl] and
    max-redirects [mr] taken from the options (absent keys read as [false]
    and 0), [prepareRedirect] returns a policy which, called with the list
    [via] of prior requests: denies with "redirect not allowed" when [fl] is
    false or [mr <= 0]; otherwise denies with "stopped after N redirects",
    N the length of [via], when that length has reached [mr]; otherwise
    allows the redirect (the transport always passes a non-empty [via]).
    With [mr = 2] every redirect with two or more prior requests, the third
    one included, is denied; with [fl = false] the first one is denied. *)
Theorem redirect_policy_synthesized :
  (forall options fl mr,
      options !! OPT_REDIRECT_POLICY = None ->
      options !! OPT_FOLLOWLOCATION = Some (VBool fl)
        \/ (options !! OPT_FOLLOWLOCATION = None /\ fl = false) ->
      options !! OPT_MAXREDIRS = Some (VInt mr)
        \/ (options !! OPT_MAXREDIRS = None /\ mr = 0) ->
      exists policy,
        prepareRedirect options = inr policy
        /\ forall req via,
            (fl = false \/ mr <= 0 ->
               policy req via
               = Done (Deny (CodedError ERR_REDIRECT_POLICY "redirect not allowed")))
            /\ (fl = true -> 0 < mr -> mr <= Z.of_nat (length via) ->
               policy req via
               = Done (Deny (CodedError ERR_REDIRECT_POLICY
                               ("stopped after " +:+ itoa (length via) +:+ " redirects"))))
            /\ (fl = true -> 0 < mr -> Z.of_nat (length via) < mr -> via <> [] ->
               exists req', policy req via = Done (Allow req')))
  /\ (forall req via, (2 <= length via)%nat ->
      exists msg, synthesizedPolicy true 2 req via
                  = Done (Deny (CodedError ERR_REDIRECT_POLICY msg)))
  /\ (forall req r0 r1 r2,
      synthesizedPolicy true 2 req [r0; r1; r2]
      = Done (Deny (CodedError ERR_REDIRECT_POLICY "stopped after 3 redirects")))
  /\ (forall mr req r0,
      synthesizedPolicy false mr req [r0]
      = Done (Deny (CodedError ERR_REDIRECT_POLICY "redirect not allowed"))).
Proof.
  split; [|split; [|split]].
  - intros options fl mr Hpol Hfl Hmr.
    exists (synthesizedPolicy fl mr). split.
    + unfold prepareRedirect, ebind. rewrite Hpol.
      destruct Hfl as [->|[-> ->]], Hmr as [->|[-> ->]]; reflexivity.
    + intros req via. split; [|split].
      * apply synthesizedPolicy_not_allowed.
      * intros -> ? ?. by apply synthesizedPolicy_stopped.
      * intros -> Hpos Hbelow Hvia.
        destruct (synthesizedPolicy_allows mr req via Hpos Hbelow Hvia)
          as (last_ & _ & ->).
        eauto.
  - intros req via Hlen. eexists.
    apply synthesizedPolicy_stopped; lia.
  - intros. reflexivity.
  - intros. by apply synthesizedPolicy_not_allowed; left.
Qed.

(** The merged defaults (follow, at most 10 hops) with a one-time limit of
    two: the policy denies at two prior requests. *)
Lemma redirect_policy_synthesized_witness :
  let options := mergeOptions [Some defaultOptions; None; Some {[OPT_MAXREDIRS := VInt 2]}] in
  let r := mkRequest "GET" "http://x/" ∅ NoBody [] in
  exists policy,
    prepareRedirect options = inr policy
    /\ policy r [r; r]
       = Done (Deny (CodedError ERR_REDIRECT_POLICY "stopped after 2 redirects"))
    /\ exists req', policy r [r] = Done (Allow req').
Proof.
  intros options r.
  destruct (proj1 redirect_policy_synthesized options true 2) as (policy & Hp & Hspec).
  - reflexivity.
  - left. reflexivity.
  - left. reflexivity.
  - exists policy. split; [exact Hp|]. split.
    + apply (proj1 (proj2 (Hspec r [r; r]))); [reflexivity|lia|simpl; lia].
    + apply (proj2 (proj2 (Hspec r [r]))); [reflexivity|lia|simpl; lia|discriminate].
Defined.

(** ** Wrongly typed option values *)

Lemma canonical_Referer : CanonicalMIMEHeaderKey "Referer" = "Referer".
Proof. reflexivity. Qed.

Lemma canonical_User_Agent : CanonicalMIMEHeaderKey "User-Agent" = "User-Agent".
Proof. reflexivity. Qed.

Lemma canonical_Cookie : CanonicalMIMEHeaderKey "Cookie" = "Cookie".
Proof. reflexivity. Qed.

(** The loop over the visited headers only sets headers: under a canonical
    name it leaves the value of the last visited entry of that name, and
    every other header as it was. *)
Lemma set_headers_lookup (visited : list (string * string)) req K :
  req_Header (foldl (fun r kv => Header_Set kv.1 kv.2 r) req visited) !! K
  = match last_set visited K with
    | Some v => Some v
    | None => req_Header req !! K
    end.
Proof.
  revert req. unfold last_set.
  induction visited as [|[k v] rest IH]; intros req; simpl; [done|].
  rewrite IH, filter_cons. simpl.
  destruct (decide (CanonicalMIMEHeaderKey k = K)) as [<-|Hne].
  - rewrite last_cons.
    destruct (last (filter _ rest)); simpl; [done|].
    by rewrite lookup_insert_eq.
  - destruct (last (filter _ rest)); simpl; [done|].
    by rewrite lookup_insert_ne.
Qed.

Lemma set_headers_fields (visited : list (string * string)) req :
  let r := foldl (fun r kv => Header_Set kv.1 kv.2 r) req visited in
  req_Method r = req_Method req /\ req_URL r = req_URL req
  /\ req_Body r = req_Body req /\ req_Cookies r = req_Cookies req.
Proof.
  revert req. induction visited as [|[k v] rest IH]; intros req; simpl; [done|].
  destruct (IH (Header_Set k v req)) as (-> & -> & -> & ->). done.
Qed.

(** C6, as stated, fails: a referer that is not a string is skipped by
    [prepareRequest], which returns the request without a [Referer] header
    and without an error. *)
Lemma prepareRequest_skips_nonstring_referer :
  exists req,
    prepareRequest plainEnv "GET" "http://x/" ∅ NoBody {[OPT_REFERER := VInt 7]}
    = inr req
    /\ req_Header req !! "Referer" = None.
Proof. eexists. split; vm_compute; reflexivity. Qed.

(** Case analysis on the option lookups of a builder, in the order of
    its checks; a branch that has reached its error is closed at once. *)
Ltac case_lookup :=
  match goal with
  | H : ?o !! ?k = _ |- context [?o !! ?k] => rewrite H
  | |- context [match ?o !! ?k with _ => _ end] =>
      destruct (o !! k) as [[]|] eqn:?
  | |- context [if negb (?a =? ?b) then _ else _] => destruct (a =? b)
  | |- context [url_Parse_error ?E ?u] => destruct (url_Parse_error E u)
  end.

Ltac builder_errors :=
  unfold config_error, ebind;
  repeat (simpl; try (eexists; reflexivity); try discriminate; case_lookup).

(** When the timeout keys are well typed, [prepareTransport] gets to its
    proxy keys. *)
Lemma prepareTransport_reaches_proxy E id options :
  connect_keys_typed options = true -> timeout_keys_typed options = true ->
  exists connectTimeoutMS timeoutMS,
    prepareTransport E id options
    = try proxy <-
        match options !! OPT_PROXY_FUNC with
        | Some proxyFunc_ =>
            match proxyFunc_ with
            | VProxyFunc proxyFunc => inr (ProxyDynamic proxyFunc)
            | _ => inl (Errorf "OPT_PROXY_FUNC is not a desired function")
            end
        | None =>
            try _ <-
              match options !! OPT_PROXYTYPE with
              | Some proxytype_ =>
                  match proxytype_ with
                  | VInt proxytype =>
                      if negb (Z.eqb proxytype PROXY_HTTP)
                      then inl (Errorf "OPT_PROXYTYPE must be int, and only PROXY_HTTP is currently supported")
                      else inr tt
                  | _ => inl (Errorf "OPT_PROXYTYPE must be int, and only PROXY_HTTP is currently supported")
                  end
              | None => inr tt
              end in
            match options !! OPT_PROXY with
            | Some proxy_ =>
                match proxy_ with
                | VString proxy =>
                    let proxy := "http://" +:+ proxy in
                    match url_Parse_error E proxy with
                    | Some err => inl err
                    | None => inr (ProxyFixed proxy)
                    end
                | _ => inl (Errorf "OPT_PROXY must be string")
                end
            | None => inr ProxyUnset
            end
        end in
      inr {| tr_id := id; tr_connectTimeoutMS := connectTimeoutMS;
             tr_timeoutMS := timeoutMS; tr_Proxy := proxy |}.
Proof.
  unfold connect_keys_typed, timeout_keys_typed, prepareTransport.
  intros Hconn Htime.
  destruct (options !! OPT_CONNECTTIMEOUT_MS) as [[]|]; simpl in Hconn;
    try discriminate Hconn;
    [|destruct (options !! OPT_CONNECTTIMEOUT) as [[]|]; simpl in Hconn;
      try discriminate Hconn];
    (destruct (options !! OPT_TIMEOUT_MS) as [[]|]; simpl in Htime;
     try discriminate Htime;
     [|destruct (options !! OPT_TIMEOUT) as [[]|]; simpl in Htime;
       try discriminate Htime]);
    simpl; eexists _, _; reflexivity.
Qed.

(** C6, amended. Every key that [prepareTransport], [prepareRedirect] or
    [prepareJar] consults is type checked, and a value of the wrong type
    makes the builder return a configuration error: the two millisecond
    timeouts, the whole-second timeouts (consulted when the millisecond key
    is absent), the proxy function, the proxy type and proxy target
    (consulted when no proxy function is set), the redirect policy,
    follow-location and max-redirects (consulted when no policy is set),
    and the cookie jar. The message names the first offending key in the
    order of the checks: for each key, when the checks before it pass, the
    message is the one of that key. [prepareRequest] by contrast never
    reports a configuration error: once [http.NewRequest] accepts the
    method and URL it returns a request, and a referer or user-agent value
    that is not a string is skipped, the request being the one built
    without that option. *)
Theorem wrong_type_reporting :
  (forall E id options v,
      options !! OPT_CONNECTTIMEOUT_MS = Some v -> is_int v = false ->
      prepareTransport E id options
      = inl (Errorf "OPT_CONNECTTIMEOUT_MS must be int"))
  /\ (forall E id options v,
      options !! OPT_CONNECTTIMEOUT_MS = None ->
      options !! OPT_CONNECTTIMEOUT = Some v -> is_int v = false ->
      prepareTransport E id options
      = inl (Errorf "OPT_CONNECTTIMEOUT must be int"))
  /\ (forall E id options v,
      options !! OPT_TIMEOUT_MS = Some v -> is_int v = false ->
      config_error (prepareTransport E id options)
      /\ (connect_keys_typed options = true ->
          prepareTransport E id options
          = inl (Errorf "OPT_TIMEOUT_MS must be int")))
  /\ (forall E id options v,
      options !! OPT_TIMEOUT_MS = None ->
      options !! OPT_TIMEOUT = Some v -> is_int v = false ->
      config_error (prepareTransport E id options)
      /\ (connect_keys_typed options = true ->
          prepareTransport E id options
          = inl (Errorf "OPT_TIMEOUT must be int")))
  /\ (forall E id options v,
      options !! OPT_PROXY_FUNC = Some v -> is_proxy_func v = false ->
      config_error (prepareTransport E id options)
      /\ (connect_keys_typed options = true -> timeout_keys_typed options = true ->
          prepareTransport E id options
          = inl (Errorf "OPT_PROXY_FUNC is not a desired function")))
  /\ (forall E id options v,
      options !! OPT_PROXY_FUNC = None ->
      options !! OPT_PROXYTYPE = Some v -> is_int v = false ->
      config_error (prepareTransport E id options)
      /\ (connect_keys_typed options = true -> timeout_keys_typed options = true ->
          prepareTransport E id options
          = inl (Errorf "OPT_PROXYTYPE must be int, and only PROXY_HTTP is currently supported")))
  /\ (forall E id options v,
      options !! OPT_PROXY_FUNC = None ->
      options !! OPT_PROXY = Some v -> is_string v = false ->
      config_error (prepareTransport E id options)
      /\ (connect_keys_typed options = true -> timeout_keys_typed options = true ->
          proxytype_accepted options = true ->
          prepareTransport E id options = inl (Errorf "OPT_PROXY must be string")))
  /\ (forall options v,
      options !! OPT_REDIRECT_POLICY = Some v -> is_redirect_func v = false ->
      prepareRedirect options
      = inl (Errorf "OPT_REDIRECT_POLICY is not a desired function"))
  /\ (forall options v,
      options !! OPT_REDIRECT_POLICY = None ->
      options !! OPT_FOLLOWLOCATION = Some v -> is_bool v = false ->
      prepareRedirect options = inl (Errorf "OPT_FOLLOWLOCATION must be bool"))
  /\ (forall options v,
      options !! OPT_REDIRECT_POLICY = None ->
      options !! OPT_MAXREDIRS = Some v -> is_int v = false ->
      config_error (prepareRedirect options)
      /\ (followlocation_typed options = true ->
          prepareRedirect options = inl (Errorf "OPT_MAXREDIRS must be int")))
  /\ (forall id options v,
      options !! OPT_COOKIEJAR = Some v -> is_bool_or_jar v = false ->
      prepareJar id options = inl (Errorf "invalid cookiejar"))
  /\ (forall E method url headers body options,
      (NewRequest_error E method url = None ->
       exists req, prepareRequest E method url headers body options = inr req)
      /\ (forall v, options !! OPT_REFERER = Some v -> is_string v = false ->
            prepareRequest E method url headers body options
            = prepareRequest E method url headers body (delete OPT_REFERER options))
      /\ (forall v, options !! OPT_USERAGENT = Some v -> is_string v = false ->
            prepareRequest E method url headers body options
            = prepareRequest E method url headers body (delete OPT_USERAGENT options))).
Proof.
  repeat apply conj.
  - intros E id options v Hv Hty. unfold prepareTransport. rewrite Hv.
    by destruct v.
  - intros E id options v Hms Hv Hty. unfold prepareTransport. rewrite Hms, Hv.
    by destruct v.
  - intros E id options v Hv Hty. split.
    + unfold prepareTransport. destruct v; try discriminate Hty; builder_errors.
    + intros Hconn.
      unfold prepareTransport, connect_keys_typed in *. rewrite Hv.
      destruct (options !! OPT_CONNECTTIMEOUT_MS) as [[]|]; try discriminate Hconn;
        [by destruct v|].
      destruct (options !! OPT_CONNECTTIMEOUT) as [[]|]; try discriminate Hconn;
        by destruct v.
  - intros E id options v Hms Hv Hty. split.
    + unfold prepareTransport. destruct v; try discriminate Hty; builder_errors.
    + intros Hconn.
      unfold prepareTransport, connect_keys_typed in *. rewrite Hms, Hv.
      destruct (options !! OPT_CONNECTTIMEOUT_MS) as [[]|]; try discriminate Hconn;
        [by destruct v|].
      destruct (options !! OPT_CONNECTTIMEOUT) as [[]|]; try discriminate Hconn;
        by destruct v.
  - intros E id options v Hv Hty. split.
    + unfold prepareTransport. destruct v; try discriminate Hty; builder_errors.
    + intros Hconn Htime.
      destruct (prepareTransport_reaches_proxy E id options Hconn Htime)
        as (c & t & ->).
      rewrite Hv. by destruct v.
  - intros E id options v Hpf Hv Hty. split.
    + unfold prepareTransport. destruct v; try discriminate Hty; builder_errors.
    + intros Hconn Htime.
      destruct (prepareTransport_reaches_proxy E id options Hconn Htime)
        as (c & t & ->).
      rewrite Hpf, Hv. by destruct v.
  - intros E id options v Hpf Hv Hty. split.
    + unfold prepareTransport. destruct v; try discriminate Hty; builder_errors.
    + intros Hconn Htime Hpt.
      destruct (prepareTransport_reaches_proxy E id options Hconn Htime)
        as (c & t & ->).
      rewrite Hpf, Hv. unfold proxytype_accepted in Hpt.
      destruct (options !! OPT_PROXYTYPE) as [[]|]; try discriminate Hpt;
        simpl; rewrite ?Hpt; simpl; by destruct v.
  - intros options v Hv Hty. unfold prepareRedirect. rewrite Hv. by destruct v.
  - intros options v Hpol Hv Hty. unfold prepareRedirect. rewrite Hpol, Hv.
    by destruct v.
  - intros options v Hpol Hv Hty. split.
    + unfold prepareRedirect. destruct v; try discriminate Hty; builder_errors.
    + intros Hfl. unfold prepareRedirect, followlocation_typed in *.
      rewrite Hpol, Hv.
      destruct (options !! OPT_FOLLOWLOCATION) as [[]|]; try discriminate Hfl;
        by destruct v.
  - intros id options v Hv Hty. unfold prepareJar. rewrite Hv. by destruct v.
  - intros E method url headers body options. split; [|split].
    + intros Hnew. unfold prepareRequest. rewrite Hnew. eauto.
    + intros v Hv Hty. unfold prepareRequest.
      rewrite lookup_delete_eq, lookup_delete_ne, Hv by done.
      by destruct v.
    + intros v Hv Hty. unfold prepareRequest.
      rewrite lookup_delete_eq, lookup_delete_ne, Hv by done.
      by destruct v.
Qed.

(** A boolean timeout is reported; a boolean user agent is skipped. *)
Lemma wrong_type_reporting_witness :
  prepareTransport plainEnv 0 {[OPT_TIMEOUT_MS := VBool true]}
  = inl (Errorf "OPT_TIMEOUT_MS must be int")
  /\ prepareTransport plainEnv 0 {[OPT_PROXY := VInt 8080]}
     = inl (Errorf "OPT_PROXY must be string")
  /\ prepareRequest plainEnv "GET" "http://x/" ∅ NoBody {[OPT_USERAGENT := VBool true]}
     = prepareRequest plainEnv "GET" "http://x/" ∅ NoBody
         (delete OPT_USERAGENT {[OPT_USERAGENT := VBool true]}).
Proof.
  split; [|split].
  - destruct (proj1 (proj2 (proj2 wrong_type_reporting))
                plainEnv 0%nat
                ({[OPT_TIMEOUT_MS := VBool true]} : gmap Z value)
                (VBool true)) as [_ Hmsg]; [reflexivity..|].
    apply Hmsg. reflexivity.
  - destruct (proj1 (proj2 (proj2 (proj2 (proj2 (proj2 (proj2 wrong_type_reporting))))))
                plainEnv 0%nat
                ({[OPT_PROXY := VInt 8080]} : gmap Z value)
                (VInt 8080)) as [_ Hmsg]; [reflexivity..|].
    apply Hmsg; reflexivity.
  - destruct (proj2 (proj2 (proj2 (proj2 (proj2 (proj2 (proj2 (proj2 (proj2
                (proj2 (proj2 wrong_type_reporting))))))))))
                plainEnv "GET" "http://x/" ∅ NoBody
                ({[OPT_USERAGENT := VBool true]} : gmap Z value))
      as (_ & _ & Hua).
    apply (Hua (VBool true)); reflexivity.
Defined.

(** ** Query construction *)

Lemma rev_app_append s t acc :
  String.rev_app (s +:+ t) acc = String.rev_app t (String.rev_app s acc).
Proof.
  revert acc. induction s as [|a s IH]; intros acc; [done|].
  change (String a s +:+ t) with (String a (s +:+ t)). simpl. apply IH.
Qed.

Lemma HasSuffix_appended s (c : ascii) :
  strings_HasSuffix (s +:+ String c "") (String c "") = true.
Proof.
  unfold strings_HasSuffix, String.rev. rewrite rev_app_append. simpl.
  destruct (ascii_dec c c); [|done].
  by destruct (String.rev_app s "").
Qed.

Lemma append_assoc (s t u : string) : (s +:+ t) +:+ u = s +:+ t +:+ u.
Proof.
  induction s as [|a s IH]; [done|].
  change (String a s +:+ t) with (String a (s +:+ t)).
  change (String a (s +:+ t) +:+ u) with (String a ((s +:+ t) +:+ u)).
  by rewrite IH.
Qed.

(** C8, as stated, fails: a URL that has a query and already ends in [&]
    gets no second [&]. *)
Lemma addQuery_no_second_ampersand :
  strings_Contains "http://x/y?b=2&" "?" = true
  /\ addQuery "http://x/y?b=2&" [("a", ["1"])] = "http://x/y?b=2&a=1"
  /\ addQuery "http://x/y?b=2&" [("a", ["1"])]
     <> "http://x/y?b=2&" +:+ "&" +:+ Encode [("a", ["1"])].
Proof. repeat split; vm_compute; congruence. Qed.

(** C8, amended. For a non-empty parameter set [addQuery] appends the
    encoded parameters after inserting [?] when the URL contains none, or
    [&] when the URL contains [?] and does not already end in [?] or [&];
    when it contains [?] and ends in [?] or [&] nothing is inserted.
    [addQuery("http://x/y", {a:1})] is ["http://x/y?a=1"] and
    [addQuery("http://x/y?b=2", {a:1})] is ["http://x/y?b=2&a=1"]. With an
    empty parameter set the URL is returned unchanged. *)
Theorem addQuery_spec :
  (forall url params,
      params <> [] -> strings_Contains url "?" = false ->
      addQuery url params = url +:+ "?" +:+ Encode params)
  /\ (forall url params,
      params <> [] -> strings_Contains url "?" = true ->
      strings_HasSuffix url "?" = false -> strings_HasSuffix url "&" = false ->
      addQuery url params = url +:+ "&" +:+ Encode params)
  /\ (forall url params,
      params <> [] -> strings_Contains url "?" = true ->
      strings_HasSuffix url "?" = true \/ strings_HasSuffix url "&" = true ->
      addQuery url params = url +:+ Encode params)
  /\ addQuery "http://x/y" [("a", ["1"])] = "http://x/y?a=1"
  /\ addQuery "http://x/y?b=2" [("a", ["1"])] = "http://x/y?b=2&a=1"
  /\ (forall url, addQuery url [] = url).
Proof.
  split; [|split; [|split; [|split; [|split]]]].
  - intros url [|p params] Hne Hq; [done|].
    unfold addQuery. simpl length. rewrite decide_False by done.
    rewrite Hq. simpl negb. cbv iota.
    rewrite (HasSuffix_appended url "?"). simpl.
    by rewrite append_assoc.
  - intros url [|p params] Hne Hq Hs1 Hs2; [done|].
    unfold addQuery. simpl length. rewrite decide_False by done.
    rewrite Hq. simpl negb. cbv iota. rewrite Hs1, Hs2. simpl.
    by rewrite append_assoc.
  - intros url [|p params] Hne Hq Hs; [done|].
    unfold addQuery. simpl length. rewrite decide_False by done.
    rewrite Hq. simpl negb. cbv iota.
    by destruct Hs as [-> | ->]; simpl; rewrite ?andb_false_r.
  - vm_compute. reflexivity.
  - vm_compute. reflexivity.
  - intros url. reflexivity.
Qed.

(** Two parameters, sorted by key, after an existing query. *)
Lemma addQuery_spec_witness :
  addQuery "http://x/y?b=2" [("z", ["9"]); ("a", ["1"; "2"])]
  = "http://x/y?b=2" +:+ "&" +:+ "a=1&a=2&z=9".
Proof.
  rewrite (proj1 (proj2 addQuery_spec) "http://x/y?b=2" [("z", ["9"]); ("a", ["1"; "2"])]);
    [|discriminate|reflexivity..].
  vm_compute. reflexivity.
Defined.

(** ** POST: routing on the file marker, and the empty parameter name *)

Lemma checkParamFile_routes params :
  Forall (fun p => p.1 <> "") params ->
  checkParamFile params = Done (existsb (fun p => is_file_param p.1) params).
Proof.
  induction 1 as [|[name vs] rest Hname _ IH]; [done|].
  simpl in *. unfold is_file_param.
  destruct name as [|c name]; [done|]. simpl.
  destruct (Ascii.eqb c "@"); [done|]. exact IH.
Qed.

(** On parameter sets without an empty name, [Post] routes as the file
    marker says. *)
Lemma Post_routes E url params again :
  Forall (fun p => p.1 <> "") params ->
  Post E url params again
  = if existsb (fun p => is_file_param p.1) params
    then PostMultipart E url again
    else Do E "POST" url
           (Some {[ "Content-Type" := "application/x-www-form-urlencoded" ]})
           (ReaderBody (Encode params)).
Proof.
  intros Hnames. unfold Post. by rewrite checkParamFile_routes.
Qed.

(** C9 fails on the code: the parameter set with the single, empty name
    has no name beginning with [@], yet [Post] sends nothing; it stops with
    an index-out-of-range panic inside [checkParamFile]. *)
Theorem Post_empty_name_panics :
  forall E url again w,
    existsb (fun p => is_file_param p.1) [("", ["x"])] = false
    /\ Post E url [("", ["x"])] again w = Crash index_panic.
Proof. intros. split; reflexivity. Qed.

Lemma checkParamFile_empty_name params :
  "" ∈ params.*1 ->
  checkParamFile params = Crash index_panic \/ checkParamFile params = Done true.
Proof.
  induction params as [|[name vs] rest IH]; simpl.
  - intros Hin. by apply elem_of_nil in Hin.
  - intros Hin. destruct name as [|c name]; [by left|]. simpl.
    destruct (Ascii.eqb c "@"); [by right|].
    apply elem_of_cons in Hin as [Hin|Hin]; [done|]. by apply IH.
Qed.

Lemma checkParamFile_empty_name_no_file params :
  "" ∈ params.*1 ->
  existsb (fun p => is_file_param p.1) params = false ->
  checkParamFile params = Crash index_panic.
Proof.
  induction params as [|[name vs] rest IH]; simpl.
  - intros Hin. by apply elem_of_nil in Hin.
  - intros Hin Hno. destruct name as [|c name]; [done|].
    apply orb_false_iff in Hno as [Hc Hrest].
    unfold is_file_param in Hc. simpl in *. rewrite Hc.
    apply elem_of_cons in Hin as [Hin|Hin]; [done|]. by apply IH.
Qed.

(** A loop that visits the empty name never completes: it panics, or it
    has returned before with the error of a file part. *)
Lemma writeParts_empty_name E params :
  "" ∈ params.*1 ->
  writeParts E params = Crash index_panic
  \/ exists err name path more,
       writeParts E params = Done (inl err)
       /\ (name, path :: more) ∈ params
       /\ is_file_param name = true
       /\ addFormFile E (drop_first name) path = inl err.
Proof.
  induction params as [|[name vs] rest IH]; simpl.
  - intros Hin. by apply elem_of_nil in Hin.
  - intros Hin. destruct name as [|c name]; [by left|].
    apply elem_of_cons in Hin as [Hin|Hin]; [done|].
    specialize (IH Hin). simpl.
    destruct (Ascii.eqb c "@") eqn:Hc.
    + destruct vs as [|path more]; [by left|].
      destruct (addFormFile E name path) as [err|part] eqn:Hadd.
      * right. exists err, (String c name), path, more.
        split; [done|]. split; [by left|]. split; [|done].
        unfold is_file_param. simpl. exact Hc.
      * destruct IH as [->|(err & n & pa & mo & -> & Hmem & Hfile & Herr)];
          [by left|].
        right. exists err, n, pa, mo. split; [done|]. split; [by right|]. done.
    + destruct IH as [->|(err & n & pa & mo & -> & Hmem & Hfile & Herr)];
        [by left|].
      right. exists err, n, pa, mo. split; [done|]. split; [by right|]. done.
Qed.

Lemma writeParts_reaches_empty_name E before vs after :
  Forall (fun p => p.1 <> "" /\ is_file_param p.1 = false) before ->
  writeParts E ((before ++ ("", vs) :: after)%list) = Crash index_panic.
Proof.
  induction 1 as [|[name ws] rest [Hname Hplain] _ IH]; [done|].
  simpl in *. destruct name as [|c name]; [done|].
  unfold is_file_param in Hplain. simpl in *. rewrite Hplain.
  by rewrite IH.
Qed.

(** C10, as stated, fails: with a file part whose file cannot be opened
    visited before the empty name, [PostMultipart] (and [Post], which hands
    over to it) returns that error; nothing panics. *)
Lemma empty_name_after_failing_file_returns_error :
  let params := [("@f", ["/missing"]); ("", ["x"])] in
  let err := ForeignError "os" "open /missing: no such file or directory" in
  "" ∈ params.*1
  /\ PostMultipart plainEnv "http://x/" params start = Done (Failed err, start)
  /\ Post plainEnv "http://x/" params params start = Done (Failed err, start).
Proof.
  intros params err. split; [|split; reflexivity].
  apply list_elem_of_further, list_elem_of_here.
Qed.

(** C10, amended. A parameter set containing the empty name never
    produces a request. Indexing the first character of the empty name is
    out of bounds, a run-time panic, as soon as a loop visits that name;
    [PostMultipart] and [Post] therefore either panic or, when the loop of
    [PostMultipart] has met a failing file part before the empty name,
    return that part's error with the client untouched. When no name
    begins with [@], [Post] always panics; when only plain fields are
    visited before the empty name, [PostMultipart] always panics. *)
Theorem empty_name_never_issues :
  (forall E url params w,
      "" ∈ params.*1 ->
      PostMultipart E url params w = Crash index_panic
      \/ exists err name path more,
           PostMultipart E url params w = Done (Failed err, w)
           /\ (name, path :: more) ∈ params /\ is_file_param name = true
           /\ addFormFile E (drop_first name) path = inl err)
  /\ (forall E url params again w,
      "" ∈ params.*1 -> "" ∈ again.*1 ->
      Post E url params again w = Crash index_panic
      \/ exists err name path more,
           Post E url params again w = Done (Failed err, w)
           /\ (name, path :: more) ∈ again /\ is_file_param name = true
           /\ addFormFile E (drop_first name) path = inl err)
  /\ (forall E url params again w,
      "" ∈ params.*1 ->
      existsb (fun p => is_file_param p.1) params = false ->
      Post E url params again w = Crash index_panic)
  /\ (forall E url before vs after w,
      Forall (fun p => p.1 <> "" /\ is_file_param p.1 = false) before ->
      PostMultipart E url ((before ++ ("", vs) :: after)%list) w = Crash index_panic).
Proof.
  assert (Hmulti : forall E url params w,
      "" ∈ params.*1 ->
      PostMultipart E url params w = Crash index_panic
      \/ exists err name path more,
           PostMultipart E url params w = Done (Failed err, w)
           /\ (name, path :: more) ∈ params /\ is_file_param name = true
           /\ addFormFile E (drop_first name) path = inl err).
  { intros E url params w Hin. unfold PostMultipart.
    destruct (writeParts_empty_name E params Hin)
      as [->|(err & n & pa & mo & -> & Hrest)]; [by left|].
    right. by exists err, n, pa, mo. }
  split; [exact Hmulti|split; [|split]].
  - intros E url params again w Hin Hagain. unfold Post.
    destruct (checkParamFile_empty_name params Hin) as [-> | ->]; [by left|].
    by apply Hmulti.
  - intros E url params again w Hin Hno. unfold Post.
    by rewrite checkParamFile_empty_name_no_file.
  - intros E url before vs after w Hbefore. unfold PostMultipart.
    by rewrite writeParts_reaches_empty_name.
Qed.

(** A form with one plain field and an empty name. *)
Lemma empty_name_never_issues_witness :
  Post plainEnv "http://x/" [("", ["x"]); ("a", ["1"])] [("a", ["1"]); ("", ["x"])] start
  = Crash index_panic
  /\ PostMultipart plainEnv "http://x/" (([("a", ["1"])] ++ ("", ["x"]) :: [])%list) start
     = Crash index_panic.
Proof.
  split.
  - apply (proj1 (proj2 (proj2 empty_name_never_issues))).
    + apply list_elem_of_here.
    + reflexivity.
  - apply (proj2 (proj2 (proj2 empty_name_never_issues))).
    constructor; [|constructor]. split; [discriminate|reflexivity].
Defined.

(** ** The client: one-time state, reuse of transport and jar *)

(** The loop of [hasOption] over the transport keys finds a differing
    element for every option, so it always answers [true]. *)
Lemma hasOption_transportOptions opt : hasOption opt transportOptions = true.
Proof.
  unfold transportOptions. simpl.
  destruct (Z.eqb_spec opt OPT_CONNECTTIMEOUT) as [->|_]; reflexivity.
Qed.

(** Over the single jar key it answers [true] exactly for the other
    options. *)
Lemma hasOption_jarOptions opt :
  hasOption opt jarOptions = negb (opt =? OPT_COOKIEJAR).
Proof. unfold jarOptions. simpl. by destruct (opt =? OPT_COOKIEJAR). Qed.

Lemma WithOption_spec opt v w :
  exists w',
    WithOption opt v w = Done (tt, w')
    /\ oneTimeOptions (self w') = Some (<[opt := v]> (entries (oneTimeOptions (self w))))
    /\ reuseTransport (self w') = reuseTransport (self w)
    /\ reuseJar (self w') = reuseJar (self w) && negb (opt =? OPT_COOKIEJAR)
    /\ transport (self w') = transport (self w)
    /\ jar (self w') = jar (self w)
    /\ lock (self w') = lock (self w).
Proof.
  unfold WithOption, bind, update, ret.
  rewrite hasOption_transportOptions, hasOption_jarOptions. simpl.
  destruct (opt =? OPT_COOKIEJAR); simpl; eexists; (split; [reflexivity|]);
    simpl; rewrite ?andb_true_r, ?andb_false_r; auto 10.
Qed.

Lemma reset_spec w :
  lock (self w) <> Some Unlocked ->
  reset w = Done (tt,
    {| self := mkClient (Options (self w)) (Headers (self w)) None None []
                        (transport (self w)) (jar (self w)) true true
                        (released (lock (self w)));
       next_id := next_id w |}).
Proof.
  destruct w as [[] n]. simpl. intros Hlock.
  unfold reset, bind, update, getClient, ret, crash. simpl.
  by destruct lock0 as [[]|].
Qed.

Lemma reset_free_lock w :
  lock (self w) = Some Unlocked ->
  reset w = Crash "sync: unlock of unlocked mutex".
Proof.
  destruct w as [[] n]. simpl. intros ->. reflexivity.
Qed.

(** Case analysis on the builders called by [Do], in the order of the
    calls. *)
Ltac case_builder :=
  match goal with
  | |- context [prepareTransport ?E ?n ?o] =>
      destruct (prepareTransport E n o) as [?err|?built] eqn:?
  | |- context [prepareJar ?n ?o] =>
      destruct (prepareJar n o) as [?err|[?built|]] eqn:?
  | |- context [prepareRedirect ?o] =>
      destruct (prepareRedirect o) as [?err|?policy] eqn:?
  | |- context [prepareRequest ?E ?m ?u ?h ?b ?o] =>
      destruct (prepareRequest E m u h b o) as [?err|?req] eqn:?
  end.

Ltac run_Do :=
  unfold Do, reset, bind, getClient, fresh, ret, update, crash; simpl;
  repeat (case_builder; simpl).

(** Every [Do] on a client whose mutex is nil or held returns, and returns
    with the one-time state cleared, both flags set and the mutex
    released, on the error paths as on the successful one. *)
Lemma Do_always_resets E method url headers body w :
  lock (self w) <> Some Unlocked ->
  exists r w',
    Do E method url headers body w = Done (r, w')
    /\ oneTimeOptions (self w') = None
    /\ oneTimeHeaders (self w') = None
    /\ oneTimeCookies (self w') = []
    /\ reuseTransport (self w') = true
    /\ reuseJar (self w') = true
    /\ lock (self w') = released (lock (self w))
    /\ Options (self w') = Options (self w)
    /\ Headers (self w') = Headers (self w).
Proof.
  destruct w as [[o h oo oh oc t j rt rj l] n]. simpl. intros Hlock.
  destruct l as [[]|]; [|done|];
    destruct t as [t|], rt, j as [j|], rj; run_Do;
    eexists _, _; (split; [reflexivity|]); simpl; auto 10.
Qed.

(** On a mutex that was created by an earlier [Begin] and is not held,
    [Do] ends in the fatal error of [Unlock]. *)
Lemma Do_free_lock E method url headers body w :
  lock (self w) = Some Unlocked ->
  Do E method url headers body w = Crash "sync: unlock of unlocked mutex".
Proof.
  destruct w as [[o h oo oh oc t j rt rj l] n]. simpl. intros ->.
  destruct t as [t|], rt, j as [j|], rj; run_Do; reflexivity.
Qed.

(** With a cached transport and the flag set, [Do] issues the request
    through the cached transport and keeps it cached. *)
Lemma Do_reuses_cached_transport E method url headers body w t r w' :
  transport (self w) = Some t -> reuseTransport (self w) = true ->
  Do E method url headers body w = Done (r, w') ->
  transport (self w') = Some t
  /\ forall httpClient req cookies,
       r = Issued httpClient req cookies -> hc_Transport httpClient = t.
Proof.
  destruct w as [[o h oo oh oc t0 j rt rj l] n]. simpl. intros -> ->.
  destruct l as [[]|], j as [j|], rj; run_Do;
    intros Hdo; simplify_eq/=;
    (split; [reflexivity|]); intros; simplify_eq/=; reflexivity.
Qed.

(** No one-time option of any key makes the next [Do] leave the cached
    transport. *)
Lemma one_time_option_keeps_cached_transport E opt v method url headers body w t r w' :
  transport (self w) = Some t -> reuseTransport (self w) = true ->
  (exec WithOption opt v; Do E method url headers body) w = Done (r, w') ->
  forall httpClient req cookies,
    r = Issued httpClient req cookies -> hc_Transport httpClient = t.
Proof.
  intros Ht Hrt. unfold bind.
  destruct (WithOption_spec opt v w) as (w1 & -> & _ & Hrt1 & _ & Ht1 & _).
  intros Hdo.
  eapply Do_reuses_cached_transport; [| |exact Hdo]; congruence.
Qed.

(** C1 fails on the code. A client that has cached its transport is given
    a one-time proxy; the request is nevertheless issued through the
    cached transport, which has no proxy. The transport the options of that
    request describe, had it been built, goes through the proxy. *)
Theorem one_time_proxy_reuses_cached_transport :
  let request := Do plainEnv "GET" "http://x/" None NoBody in
  let cached := mkTransport 0 0 0 ProxyUnset in
  let w1 := after request start in
  transport (self w1) = Some cached
  /\ reuseTransport (self (after (WithOption OPT_PROXY (VString "proxy:8080")) w1)) = true
  /\ used_transport ((exec WithOption OPT_PROXY (VString "proxy:8080"); request) w1)
     = Some cached
  /\ prepareTransport plainEnv 2
       (mergeOptions [Some defaultOptions; None;
                      Some {[OPT_PROXY := VString "proxy:8080"]}])
     = inr (mkTransport 2 0 0 (ProxyFixed "http://proxy:8080")).
Proof. repeat split; vm_compute; reflexivity. Qed.

(** On the jar side the flag behaves as documented: of all one-time
    options exactly [OPT_COOKIEJAR] clears [reuseJar]. *)
Lemma one_time_jar_option_forces_new_jar opt v w :
  reuseJar (self (after (WithOption opt v) w))
  = reuseJar (self w) && negb (opt =? OPT_COOKIEJAR).
Proof.
  unfold after. by destruct (WithOption_spec opt v w) as (w' & -> & _ & _ & -> & _).
Qed.

(** C3 fails on the code in its consequence. The first request carries a
    one-time timeout of 1 ms; [Do] clears the one-time state, yet the
    transport built from that timeout has been cached, and the next
    request, made without any [With] call, dials with 1 ms. A client with
    only its defaults dials without a timeout. *)
Theorem one_time_timeout_survives_in_cached_transport :
  let request := Do plainEnv "GET" "http://x/" None NoBody in
  let w1 := after (exec WithOption OPT_TIMEOUT_MS (VInt 1); request) start in
  oneTimeOptions (self w1) = None
  /\ reuseTransport (self w1) = true
  /\ used_transport (request w1) = Some (mkTransport 0 1 1 ProxyUnset)
  /\ Dial (mkTransport 0 1 1 ProxyUnset) = mkDialPlan (DialTimeout 1) (Some 1)
  /\ used_transport (request start) = Some (mkTransport 0 0 0 ProxyUnset)
  /\ Dial (mkTransport 0 0 0 ProxyUnset) = mkDialPlan DialPlain None.
Proof. repeat split; vm_compute; reflexivity. Qed.

(** C7 fails on the code. The default client is the zero value of the
    struct: both flags start false, where [NewClient] sets them. Its first
    request therefore caches neither transport nor jar, and its second
    request runs on a new transport and a new jar, where a client made by
    [NewClient] reuses those of the first. *)
Theorem default_client_differs_from_NewClient :
  let request := Do plainEnv "GET" "http://x/" None NoBody in
  let facade_request := Facade.Do plainEnv "GET" "http://x/" None NoBody in
  let d1 := after facade_request Facade.start in
  let n1 := after request start in
  (reuseTransport Facade.client = false /\ reuseJar Facade.client = false)
  /\ (reuseTransport NewClient = true /\ reuseJar NewClient = true)
  /\ (transport (self d1) = None /\ jar (self d1) = None)
  /\ (transport (self n1) = Some (mkTransport 0 0 0 ProxyUnset)
      /\ jar (self n1) = Some (mkJar 1))
  /\ (used_transport (facade_request Facade.start) = Some (mkTransport 0 0 0 ProxyUnset)
      /\ used_jar (facade_request Facade.start) = Some (mkJar 1))
  /\ (used_transport (facade_request d1) = Some (mkTransport 2 0 0 ProxyUnset)
      /\ used_jar (facade_request d1) = Some (mkJar 3))
  /\ (used_transport (request n1) = Some (mkTransport 0 0 0 ProxyUnset)
      /\ used_jar (request n1) = Some (mkJar 1)).
Proof. repeat split; vm_compute; reflexivity. Qed.

(** * Further properties of the code *)

(** ** [hasOption] *)

(** [hasOption] answers [true] exactly when the list holds an element
    different from [opt]. It is therefore not a membership test: over a list
    with two different elements it is [true] for every option, and over the
    one-element list of the option itself it is [false]. *)
Theorem hasOption_true_iff_differs :
  (forall opt options,
      hasOption opt options = true <-> exists v, v ∈ options /\ v <> opt)
  /\ (forall opt a b rest, a <> b -> hasOption opt (a :: b :: rest) = true)
  /\ (forall opt, hasOption opt [opt] = false).
Proof.
  assert (Hiff : forall opt options,
             hasOption opt options = true <-> exists v, v ∈ options /\ v <> opt).
  { intros opt options. induction options as [|val rest IH]; simpl.
    - split; [done|]. intros (v & Hin & _). by apply elem_of_nil in Hin.
    - destruct (Z.eqb_spec opt val) as [->|Hne]; simpl.
      + rewrite IH. split.
        * intros (v & Hin & Hv). exists v. split; [by right|done].
        * intros (v & Hin & Hv). exists v. split; [|done].
          apply elem_of_cons in Hin as [->|Hin]; done.
      + split; [|done]. intros _. exists val. split; [by left|congruence]. }
  split; [exact Hiff|split].
  - intros opt a b rest Hab. apply Hiff.
    destruct (decide (a = opt)) as [->|Ha].
    + exists b. split; [by right; left|congruence].
    + exists a. split; [by left|done].
  - intros opt. simpl. by rewrite Z.eqb_refl.
Qed.

(** ** One-time configuration *)

Lemma WithOption_world opt v w :
  WithOption opt v w
  = Done (tt,
      {| self := set_reuseJar (reuseJar (self w) && negb (opt =? OPT_COOKIEJAR))
                   (set_oneTimeOptions
                      (Some (<[opt := v]> (entries (oneTimeOptions (self w)))))
                      (self w));
         next_id := next_id w |}).
Proof.
  destruct w as [[] n].
  unfold WithOption, bind, update, ret.
  rewrite hasOption_transportOptions, hasOption_jarOptions. simpl.
  by destruct (opt =? OPT_COOKIEJAR); simpl; rewrite ?andb_true_r, ?andb_false_r.
Qed.

Lemma fold_WithOption (m : gmap Z value) :
  forall w,
    map_fold (fun option val rest => exec rest; WithOption option val) (ret tt) m w
    = Done (tt,
        {| self := set_reuseJar
                     (reuseJar (self w)
                      && match m !! OPT_COOKIEJAR with Some _ => false | None => true end)
                     (set_oneTimeOptions
                        (if decide (m = ∅) then oneTimeOptions (self w)
                         else Some (m ∪ entries (oneTimeOptions (self w))))
                        (self w));
           next_id := next_id w |}).
Proof.
  revert m.
  apply (map_fold_weak_ind
    (fun (r : M unit) (m : gmap Z value) => forall w,
       r w = Done (tt,
         {| self := set_reuseJar
                      (reuseJar (self w)
                       && match m !! OPT_COOKIEJAR with Some _ => false | None => true end)
                      (set_oneTimeOptions
                         (if decide (m = ∅) then oneTimeOptions (self w)
                          else Some (m ∪ entries (oneTimeOptions (self w))))
                         (self w));
            next_id := next_id w |}))).
  - intros [[] n]. unfold ret. simpl. rewrite lookup_empty.
    by rewrite andb_true_r.
  - intros i x m r Hi IH [c n]. unfold bind. rewrite IH, WithOption_world.
    destruct c as [o h oo oh oc t j rt rj l].
    unfold set_reuseJar, set_oneTimeOptions. simpl.
    destruct (decide (<[i:=x]> m = ∅)) as [He|_];
      [by apply insert_non_empty in He|].
    assert (Hopt : <[i:=x]> (entries (if decide (m = ∅) then oo
                                      else Some (m ∪ entries oo)))
                   = <[i:=x]> m ∪ entries oo).
    { destruct (decide (m = ∅)) as [->|_]; simpl.
      - by rewrite <- insert_union_l, (left_id_L ∅ (∪)).
      - by rewrite insert_union_l. }
    assert (Hjar : rj && match m !! OPT_COOKIEJAR with Some _ => false | None => true end
                      && negb (i =? OPT_COOKIEJAR)
                   = rj && match <[i:=x]> m !! OPT_COOKIEJAR with
                           | Some _ => false
                           | None => true
                           end).
    { rewrite <- andb_assoc. f_equal.
      destruct (Z.eqb_spec i OPT_COOKIEJAR) as [->|Hne].
      - rewrite lookup_insert_eq. simpl. by rewrite andb_false_r.
      - rewrite lookup_insert_ne by done. by rewrite andb_true_r. }
    by rewrite Hopt, Hjar.
Qed.

(** [WithOptions] amounts to one assignment of all its entries: they hide
    earlier one-time values of the same keys, whatever order the map is
    visited in. A nil or empty argument leaves a nil one-time map nil. The
    transport flag is never touched; the jar flag is cleared exactly when
    [OPT_COOKIEJAR] is among the keys. Nothing else changes. *)
Theorem WithOptions_effect options w :
  WithOptions options w
  = Done (tt,
      {| self := set_reuseJar
                   (reuseJar (self w)
                    && match entries options !! OPT_COOKIEJAR with
                       | Some _ => false
                       | None => true
                       end)
                   (set_oneTimeOptions
                      (if decide (entries options = ∅) then oneTimeOptions (self w)
                       else Some (entries options ∪ entries (oneTimeOptions (self w))))
                      (self w));
         next_id := next_id w |}).
Proof. unfold WithOptions. apply fold_WithOption. Qed.

(** ** Client defaults *)

(** After [Defaults] a key reads as the argument binds it and otherwise
    as before, for options and for headers; one-time state, the cached
    transport and jar, the flags and the lock are untouched. *)
Theorem Defaults_effect options headers w :
  exists w',
    Defaults options headers w = Done (tt, w')
    /\ (forall k, entries (Options (self w')) !! k
                  = match entries options !! k with
                    | Some v => Some v
                    | None => entries (Options (self w)) !! k
                    end)
    /\ (forall k, entries (Headers (self w')) !! k
                  = match entries headers !! k with
                    | Some v => Some v
                    | None => entries (Headers (self w)) !! k
                    end)
    /\ oneTimeOptions (self w') = oneTimeOptions (self w)
    /\ oneTimeHeaders (self w') = oneTimeHeaders (self w)
    /\ oneTimeCookies (self w') = oneTimeCookies (self w)
    /\ transport (self w') = transport (self w)
    /\ jar (self w') = jar (self w)
    /\ reuseTransport (self w') = reuseTransport (self w)
    /\ reuseJar (self w') = reuseJar (self w)
    /\ lock (self w') = lock (self w)
    /\ next_id w' = next_id w.
Proof.
  destruct w as [[o h oo oh oc t j rt rj l] n].
  unfold Defaults, bind, getClient, update, ret. simpl.
  destruct o as [o|], h as [h|]; simpl; eexists; (split; [reflexivity|]); simpl;
    (split; [|split; [|auto 12]]); intros k;
    rewrite ?range_assign_lookup, ?lookup_empty;
    try reflexivity; by destruct (_ !! k).
Qed.

(** The same world results when the runtime visits the entries of the map
    in any other order. *)
Lemma WithOption_in_order (visited : list (Z * value)) :
  NoDup visited.*1 ->
  forall w,
    foldr (fun kv rest => exec WithOption kv.1 kv.2; rest) (ret tt) visited w
    = Done (tt,
        {| self := set_reuseJar
                     (reuseJar (self w)
                      && match (list_to_map visited : gmap Z value) !! OPT_COOKIEJAR with
                         | Some _ => false
                         | None => true
                         end)
                     (set_oneTimeOptions
                        (if decide (visited = []) then oneTimeOptions (self w)
                         else Some (list_to_map visited ∪ entries (oneTimeOptions (self w))))
                        (self w));
           next_id := next_id w |}).
Proof.
  induction visited as [|[k v] rest IH]; intros Hnodup [c n].
  - destruct c. unfold ret. simpl. rewrite lookup_empty.
    by rewrite andb_true_r.
  - apply NoDup_cons in Hnodup as [Hk Hrest]. simpl.
    unfold bind. rewrite WithOption_world, (IH Hrest).
    destruct c as [o h oo oh oc t j rt rj l].
    unfold set_reuseJar, set_oneTimeOptions. simpl.
    assert (Hk' : (list_to_map rest : gmap Z value) !! k = None)
      by (by apply not_elem_of_list_to_map_1).
    assert (Hopt : (if decide (rest = []) then Some (<[k:=v]> (entries oo))
                    else Some (list_to_map rest ∪ <[k:=v]> (entries oo)))
                   = Some (<[k:=v]> (list_to_map rest) ∪ entries oo)).
    { destruct (decide (rest = [])) as [->|_]; simpl.
      - by rewrite <- insert_union_l, (left_id_L ∅ (∪)).
      - by rewrite <- insert_union_r, insert_union_l. }
    assert (Hjar : rj && negb (k =? OPT_COOKIEJAR)
                      && match (list_to_map rest : gmap Z value) !! OPT_COOKIEJAR with
                         | Some _ => false
                         | None => true
                         end
                   = rj && match <[k:=v]> (list_to_map rest : gmap Z value)
                                 !! OPT_COOKIEJAR with
                           | Some _ => false
                           | None => true
                           end).
    { rewrite <- andb_assoc. f_equal.
      destruct (Z.eqb_spec k OPT_COOKIEJAR) as [->|Hne].
      - by rewrite lookup_insert_eq.
      - by rewrite lookup_insert_ne. }
    by rewrite Hopt, Hjar.
Qed.

Lemma WithOptions_any_order options (visited : list (Z * value)) w :
  visited ≡ₚ map_to_list (entries options) ->
  foldr (fun kv rest => exec WithOption kv.1 kv.2; rest) (ret tt) visited w
  = WithOptions options w.
Proof.
  intros Hperm. unfold WithOptions. rewrite fold_WithOption.
  assert (Hnodup : NoDup visited.*1).
  { rewrite Hperm. apply NoDup_fst_map_to_list. }
  assert (Hmap : list_to_map visited = entries options).
  { rewrite <- (list_to_map_to_list (entries options)).
    by apply list_to_map_proper. }
  rewrite WithOption_in_order by done. rewrite Hmap.
  destruct (decide (visited = [])) as [->|Hne].
  - simpl in Hmap. rewrite <- Hmap. by rewrite decide_True.
  - rewrite decide_False; [done|].
    intros Hempty. rewrite Hempty, map_to_list_empty in Hperm.
    by apply Permutation_nil_r in Hperm.
Qed.

(** ** Transport: what [prepareTransport] guarantees *)


Lemma Duration_of_millis_exact millis :
  0 <= millis <= 9223372036854 ->
  Duration_of_millis millis = millis * 1000000.
Proof.
  intros Hn. unfold Duration_of_millis, time_Millisecond, int_mul, int_wrap.
  rewrite Z.mod_small; lia.
Qed.

Lemma Duration_of_millis_range millis :
  -9223372036854775808 <= Duration_of_millis millis <= 9223372036854775807.
Proof.
  unfold Duration_of_millis, int_mul, int_wrap.
  pose proof (Z.mod_pos_bound (millis * time_Millisecond + 2 ^ 63) (2 ^ 64)).
  lia.
Qed.

(** A transport with an overall timeout never has a longer connect
    timeout, and never none: whenever [prepareTransport] stores an overall
    timeout of [t] > 0 ms, the connect timeout it stores is not 0 and is at
    most [t]. The dial calls [net.DialTimeout] and arms a deadline only
    from a millisecond value that is positive. The [time.Duration] it
    computes from that value is that many milliseconds, and positive, as
    long as the value is at most 9223372036854; above, the 64-bit product
    wraps and the duration is another one. With [OPT_CONNECTTIMEOUT_MS] =
    9223372036855 the duration handed to [net.DialTimeout] is negative. *)
Theorem connect_timeout_within_overall :
  (forall E id options tr,
      prepareTransport E id options = inr tr ->
      (0 < tr_timeoutMS tr ->
         tr_connectTimeoutMS tr <> 0 /\ tr_connectTimeoutMS tr <= tr_timeoutMS tr)
      /\ (forall ms, dial_call (Dial tr) = DialTimeout ms ->
            0 < ms /\ ms = tr_connectTimeoutMS tr
            /\ exists d, timeout_passed (Dial tr) = Some d
                 /\ (ms <= 9223372036854 -> d = ms * 1000000 /\ 0 < d)
                 /\ (9223372036854 < ms -> d <> ms * 1000000))
      /\ (forall ms, dial_deadline (Dial tr) = Some ms ->
            0 < ms /\ ms = tr_timeoutMS tr
            /\ exists d, deadline_passed (Dial tr) = Some d
                 /\ (ms <= 9223372036854 -> d = ms * 1000000 /\ 0 < d)
                 /\ (9223372036854 < ms -> d <> ms * 1000000)))
  /\ (forall E id, exists tr d,
      prepareTransport E id {[OPT_CONNECTTIMEOUT_MS := VInt 9223372036855]} = inr tr
      /\ dial_call (Dial tr) = DialTimeout 9223372036855
      /\ timeout_passed (Dial tr) = Some d
      /\ d < 0).
Proof.
  split.
  - intros E id options tr Hok.
    destruct (prepareTransport_timeouts _ _ _ _ Hok) as (_ & Ht & Hc).
    set (c := requestedMS options OPT_CONNECTTIMEOUT_MS OPT_CONNECTTIMEOUT) in *.
    set (t := requestedMS options OPT_TIMEOUT_MS OPT_TIMEOUT) in *.
    split; [|split].
    + intros Hpos. rewrite Hc, Ht in *.
      destruct (Z.ltb_spec 0 t); [|lia]. simpl.
      destruct (Z.ltb_spec t c), (Z.eqb_spec c 0); simpl; lia.
    + intros ms. unfold timeout_passed, Dial. cbn [dial_call].
      destruct (Z.ltb_spec 0 (tr_connectTimeoutMS tr)); intros [= <-].
      split; [lia|]. split; [done|].
      eexists. split; [reflexivity|]. split.
      * intros Hle. rewrite Duration_of_millis_exact; lia.
      * intros Hgt. pose proof (Duration_of_millis_range (tr_connectTimeoutMS tr)). lia.
    + intros ms. unfold deadline_passed, Dial. cbn [dial_deadline].
      destruct (Z.ltb_spec 0 (tr_timeoutMS tr)); intros [= <-].
      split; [lia|]. split; [done|].
      eexists. split; [reflexivity|]. split.
      * intros Hle. rewrite Duration_of_millis_exact; lia.
      * intros Hgt. pose proof (Duration_of_millis_range (tr_timeoutMS tr)). lia.
  - intros E id. eexists _, _.
    split; [vm_compute; reflexivity|].
    split; [vm_compute; reflexivity|].
    split; vm_compute; reflexivity.
Qed.

Lemma connect_timeout_within_overall_witness :
  let options : gmap Z value :=
    <[OPT_TIMEOUT_MS := VInt 200]> {[OPT_CONNECTTIMEOUT := VInt 3]} in
  let tr := mkTransport 0 200 200 ProxyUnset in
  prepareTransport plainEnv 0 options = inr tr
  /\ tr_connectTimeoutMS tr <> 0
  /\ tr_connectTimeoutMS tr <= tr_timeoutMS tr
  /\ exists d, timeout_passed (Dial tr) = Some d /\ d = 200 * 1000000.
Proof.
  intros options tr.
  assert (Hok : prepareTransport plainEnv 0 options = inr tr) by reflexivity.
  split; [exact Hok|].
  destruct (proj1 connect_timeout_within_overall plainEnv 0%nat options tr Hok)
    as (Hclamp & Hdial & _).
  destruct (Hclamp eq_refl) as [Hne Hle].
  split; [exact Hne|]. split; [exact Hle|].
  destruct (Hdial 200 eq_refl) as (_ & _ & d & Hd & Hexact & _).
  exists d. split; [exact Hd|].
  apply Hexact. lia.
Defined.



(** ** Function-valued options and their static siblings *)

(** Once [OPT_PROXY_FUNC] is set, [OPT_PROXYTYPE] and [OPT_PROXY] are never
    looked at, and once [OPT_REDIRECT_POLICY] is set, [OPT_FOLLOWLOCATION]
    and [OPT_MAXREDIRS] are never looked at: whatever values those keys
    get, of whatever type, the builder returns what it returned without
    them. *)
Theorem function_options_shadow_static_options :
  (forall E id (options : gmap Z value) proxytype proxy,
      is_Some (options !! OPT_PROXY_FUNC) ->
      prepareTransport E id
        (<[OPT_PROXYTYPE := proxytype]> (<[OPT_PROXY := proxy]> options))
      = prepareTransport E id options)
  /\ (forall (options : gmap Z value) followlocation maxredirs,
      is_Some (options !! OPT_REDIRECT_POLICY) ->
      prepareRedirect
        (<[OPT_FOLLOWLOCATION := followlocation]> (<[OPT_MAXREDIRS := maxredirs]> options))
      = prepareRedirect options).
Proof.
  split.
  - intros E id options proxytype proxy [f Hf]. unfold prepareTransport.
    rewrite !(lookup_insert_ne _ OPT_PROXYTYPE) by done.
    rewrite !(lookup_insert_ne _ OPT_PROXY) by done.
    by rewrite Hf.
  - intros options followlocation maxredirs [f Hf]. unfold prepareRedirect.
    rewrite !(lookup_insert_ne _ OPT_FOLLOWLOCATION) by done.
    rewrite !(lookup_insert_ne _ OPT_MAXREDIRS) by done.
    by rewrite Hf.
Qed.

Lemma function_options_shadow_static_options_witness :
  let f : Request -> Z * string * option error := fun _ => (PROXY_HTTP, "p:1", None) in
  prepareTransport plainEnv 0
    (<[OPT_PROXYTYPE := VInt PROXY_SOCKS5]>
       (<[OPT_PROXY := VBool true]> {[OPT_PROXY_FUNC := VProxyFunc f]}))
  = inr (mkTransport 0 0 0 (ProxyDynamic f)).
Proof.
  intros f.
  rewrite (proj1 function_options_shadow_static_options); [reflexivity|].
  eexists. reflexivity.
Defined.

(** ** Proxies: only the HTTP scheme *)

(** A static proxy type other than [PROXY_HTTP] is a configuration error.
    A static proxy target [p] becomes the fixed proxy URL ["http://" + p],
    whatever [p] starts with. A resolver function is asked per request: its
    error is passed on before anything else, a proxy type other than
    [PROXY_HTTP] is refused, and an HTTP answer [uri] becomes
    ["http://" + uri] unless that fails to parse. *)
Theorem only_http_proxies :
  (forall E id options n,
      options !! OPT_PROXY_FUNC = None ->
      options !! OPT_PROXYTYPE = Some (VInt n) -> n <> PROXY_HTTP ->
      config_error (prepareTransport E id options))
  /\ (forall E id options p tr,
      options !! OPT_PROXY_FUNC = None ->
      options !! OPT_PROXY = Some (VString p) ->
      prepareTransport E id options = inr tr ->
      tr_Proxy tr = ProxyFixed ("http://" +:+ p))
  /\ (forall E f req ty uri err,
      f req = (ty, uri, Some err) -> dynamicProxy E f req = inl err)
  /\ (forall E f req ty uri,
      f req = (ty, uri, None) -> ty <> PROXY_HTTP ->
      dynamicProxy E f req = inl (Errorf "only PROXY_HTTP is currently supported"))
  /\ (forall E f req uri,
      f req = (PROXY_HTTP, uri, None) ->
      dynamicProxy E f req
      = match url_Parse_error E ("http://" +:+ uri) with
        | Some err => inl err
        | None => inr ("http://" +:+ uri)
        end).
Proof.
  repeat apply conj.
  - intros E id options n Hpf Hpt Hn. unfold prepareTransport.
    assert (Hneq : (n =? PROXY_HTTP) = false) by (by apply Z.eqb_neq).
    builder_errors; rewrite ?Hneq; simpl; try (eexists; reflexivity);
      builder_errors.
  - intros E id options p tr Hpf Hp. unfold prepareTransport, ebind.
    rewrite Hpf, Hp.
    repeat (match goal with
            | |- context [match ?o !! ?k with _ => _ end] =>
                destruct (o !! k) as [[]|]
            | |- context [if negb (?a =? ?b) then _ else _] => destruct (a =? b)
            | |- context [url_Parse_error ?E ?u] => destruct (url_Parse_error E u)
            end; simpl; try discriminate);
      by intros [= <-].
  - intros E f req ty uri err Hf. unfold dynamicProxy. by rewrite Hf.
  - intros E f req ty uri Hf Hty. unfold dynamicProxy. rewrite Hf.
    by rewrite (proj2 (Z.eqb_neq ty PROXY_HTTP) Hty).
  - intros E f req uri Hf. unfold dynamicProxy. by rewrite Hf.
Qed.

Lemma only_http_proxies_witness :
  config_error (prepareTransport plainEnv 0 {[OPT_PROXYTYPE := VInt PROXY_SOCKS5]})
  /\ dynamicProxy plainEnv (fun _ => (PROXY_SOCKS4, "p:1", None))
       (mkRequest "GET" "http://x/" ∅ NoBody [])
     = inl (Errorf "only PROXY_HTTP is currently supported").
Proof.
  split.
  - apply (proj1 only_http_proxies plainEnv 0%nat
             ({[OPT_PROXYTYPE := VInt PROXY_SOCKS5]} : gmap Z value) PROXY_SOCKS5);
      [reflexivity|reflexivity|discriminate].
  - apply (proj1 (proj2 (proj2 (proj2 only_http_proxies))) plainEnv _ _
             PROXY_SOCKS4 "p:1"); [reflexivity|discriminate].
Defined.

(** ** Redirect policy: what an allowed redirect carries *)

(** When the synthesized policy allows a redirect, the new request leaves
    it with the [User-Agent] of the immediately preceding request, provided
    that one is not empty, and with every other header, the method, the URL,
    the body and the cookies as they came in. Called with an empty list of
    prior requests while redirects are allowed, the policy panics on
    [via[len(via)-1]]. *)
Theorem allowed_redirect_forwards_user_agent :
  (forall maxredirs req via prev,
      0 < maxredirs -> Z.of_nat (length via) < maxredirs ->
      last via = Some prev ->
      exists req',
        synthesizedPolicy true maxredirs req via = Done (Allow req')
        /\ (forall k,
              req_Header req' !! k
              = if decide (k = "User-Agent"
                           /\ Header_Get (req_Header prev) "User-Agent" <> "")
                then Some (Header_Get (req_Header prev) "User-Agent")
                else req_Header req !! k)
        /\ req_Method req' = req_Method req /\ req_URL req' = req_URL req
        /\ req_Body req' = req_Body req /\ req_Cookies req' = req_Cookies req)
  /\ (forall maxredirs req,
      0 < maxredirs ->
      synthesizedPolicy true maxredirs req [] = Crash "index out of range [-1]").
Proof.
  split.
  - intros maxredirs req via prev Hpos Hbelow Hlast.
    unfold synthesizedPolicy. simpl.
    destruct (Z.leb_spec maxredirs 0); [lia|].
    destruct (Z.leb_spec maxredirs (Z.of_nat (length via))); [lia|].
    rewrite Hlast. eexists. split; [reflexivity|].
    destruct (decide (Header_Get (req_Header prev) "User-Agent" = "")) as [Hua|Hua].
    + split; [|done]. intros k. rewrite decide_False; [done|]. by intros [_ ?].
    + split; [|done]. intros k. simpl.
      destruct (decide (k = "User-Agent")) as [->|Hk].
      * rewrite lookup_insert_eq. by rewrite decide_True.
      * rewrite lookup_insert_ne by done. rewrite decide_False; [done|].
        by intros [? _].
  - intros maxredirs req Hpos. unfold synthesizedPolicy. simpl.
    destruct (Z.leb_spec maxredirs 0); [lia|].
    change (Z.of_nat 0) with 0.
    by destruct (Z.leb_spec maxredirs 0); [lia|].
Qed.

Lemma allowed_redirect_forwards_user_agent_witness :
  let first := mkRequest "GET" "http://x/" {["User-Agent" := "bot"; "Accept" := "a"]} NoBody [] in
  let next := mkRequest "GET" "http://x/moved" ∅ NoBody [] in
  exists req',
    synthesizedPolicy true 10 next [first] = Done (Allow req')
    /\ req_Header req' !! "User-Agent" = Some "bot"
    /\ req_Header req' !! "Accept" = None.
Proof.
  intros first next.
  destruct (proj1 allowed_redirect_forwards_user_agent 10 next [first] first)
    as (req' & Hp & Hh & _); [lia|simpl; lia|reflexivity|].
  exists req'. split; [exact Hp|]. rewrite !Hh. split; reflexivity.
Defined.

(** ** Requests issued by [Do] *)

Lemma last_set_list_to_map (visited : list (string * string)) K :
  NoDup visited.*1 ->
  (forall kv, kv ∈ visited -> CanonicalMIMEHeaderKey kv.1 = kv.1) ->
  last_set visited K = (list_to_map visited : gmap string string) !! K.
Proof.
  unfold last_set.
  induction visited as [|[k v] rest IH]; intros Hnodup Hcanon; [done|].
  cbn [fmap list_fmap fst list_to_map foldr uncurry] in *.
  apply NoDup_cons in Hnodup as [Hk Hrest].
  assert (Hk' : (list_to_map rest : gmap string string) !! k = None)
    by (by apply not_elem_of_list_to_map_1).
  assert (IH' : snd <$> last (filter (fun kv => CanonicalMIMEHeaderKey kv.1 = K) rest)
                = (list_to_map rest : gmap string string) !! K).
  { apply IH; [done|]. intros kv Hin. apply Hcanon. by right. }
  pose proof (Hcanon (k, v) ltac:(by left)) as Hkc. cbn [fst] in Hkc.
  rewrite filter_cons. cbn [fst]. rewrite Hkc.
  destruct (decide (k = K)) as [<-|Hne]; cbn [fmap option_fmap option_map snd].
  - rewrite lookup_insert_eq, last_cons.
    rewrite Hk' in IH'.
    by destruct (last (filter _ rest)).
  - by rewrite lookup_insert_ne.
Qed.

(** With canonical names no two entries meet under one name, and the
    visiting order does not matter. *)
Lemma last_set_canonical (headers : gmap string string) visited K :
  canonical_names headers ->
  visited ≡ₚ map_to_list headers ->
  last_set visited K = headers !! K.
Proof.
  intros Hcanon Hperm.
  assert (Hnodup : NoDup visited.*1).
  { rewrite Hperm. apply NoDup_fst_map_to_list. }
  rewrite last_set_list_to_map; [|done|].
  - assert (Hmap : list_to_map visited = headers).
    { rewrite <- (list_to_map_to_list headers). by apply list_to_map_proper. }
    by rewrite Hmap.
  - intros [k v] Hin. simpl. apply Hcanon. exists v.
    apply elem_of_map_to_list. by rewrite <- Hperm.
Qed.

Lemma canonical_names_checked (headers : gmap string string) :
  map_Forall (fun k _ => CanonicalMIMEHeaderKey k = k) headers ->
  canonical_names headers.
Proof. intros Hall k [v Hk]. exact (Hall k v Hk). Qed.

Lemma prepareRequest_parts E method url headers body options req :
  prepareRequest E method url headers body options = inr req ->
  req_Method req = (if decide (method = "") then "GET" else method)
  /\ req_URL req = url /\ req_Body req = body
  /\ req_Cookies req = []
  /\ forall K, req_Header req !! K
               = match last_set (range_headers E headers) K with
                 | Some v => Some v
                 | None => option_header options K
                 end.
Proof.
  unfold prepareRequest. destruct (NewRequest_error E method url); [done|].
  intros [= <-].
  set (base := match options !! OPT_USERAGENT with
               | Some (VString useragentStr) => _
               | _ => _
               end).
  destruct (set_headers_fields (range_headers E headers) base) as (-> & -> & -> & ->).
  assert (Hbase : req_Method base = (if decide (method = "") then "GET" else method)
                  /\ req_URL base = url /\ req_Body base = body
                  /\ req_Cookies base = []).
  { subst base.
    destruct (options !! OPT_USERAGENT) as [[]|],
             (options !! OPT_REFERER) as [[]|]; done. }
  destruct Hbase as (-> & -> & -> & ->).
  repeat (split; [reflexivity|]).
  intros K. rewrite set_headers_lookup.
  destruct (last_set (range_headers E headers) K); [done|].
  subst base. unfold option_header, Header_Set.
  destruct (decide (K = "User-Agent")) as [->|Hua].
  - destruct (options !! OPT_USERAGENT) as [[]|],
             (options !! OPT_REFERER) as [[]|]; cbn [req_Header];
      rewrite ?canonical_User_Agent, ?canonical_Referer;
      rewrite ?lookup_insert_eq, ?lookup_insert_ne, ?lookup_empty by done; done.
  - destruct (decide (K = "Referer")) as [->|Href].
    + destruct (options !! OPT_USERAGENT) as [[]|],
               (options !! OPT_REFERER) as [[]|]; cbn [req_Header];
        rewrite ?canonical_User_Agent, ?canonical_Referer;
        rewrite ?lookup_insert_eq, ?lookup_insert_ne, ?lookup_empty by done; done.
    + destruct (options !! OPT_USERAGENT) as [[]|],
               (options !! OPT_REFERER) as [[]|]; cbn [req_Header];
        rewrite ?canonical_User_Agent, ?canonical_Referer;
        rewrite ?lookup_insert_ne, ?lookup_empty by done; done.
Qed.

(** [AddCookie] touches the [Cookie] header and the log of cookies, and
    nothing else. *)
Lemma AddCookies_parts E cookies req :
  let r := AddCookies E cookies req in
  req_Method r = req_Method req /\ req_URL r = req_URL req
  /\ req_Body r = req_Body req
  /\ req_Cookies r = (req_Cookies req ++ cookies)%list
  /\ forall K, K <> "Cookie" -> req_Header r !! K = req_Header req !! K.
Proof.
  unfold AddCookies. revert req.
  induction cookies as [|c rest IH]; intros req; simpl.
  - by rewrite app_nil_r.
  - destruct (IH (AddCookie E c req)) as (-> & -> & -> & -> & Hh).
    unfold AddCookie, Header_Set. cbn [req_Method req_URL req_Body req_Cookies req_Header].
    rewrite <- app_assoc. repeat (split; [reflexivity|]).
    intros K HK. rewrite Hh by done.
    unfold AddCookie, Header_Set. cbn [req_Header].
    rewrite canonical_Cookie. by rewrite lookup_insert_ne.
Qed.

(** What an issued reply is made of. *)
Lemma Do_issued E method url headers body w httpClient req jarCookies w' :
  Do E method url headers body w = Done (Issued httpClient req jarCookies, w') ->
  let options := mergeOptions [Some defaultOptions; Options (self w);
                               oneTimeOptions (self w)] in
  let merged := mergeHeaders [Headers (self w); oneTimeHeaders (self w); headers] in
  exists built,
    prepareRequest E method url merged body options = inr built
    /\ prepareRedirect options = inr (hc_CheckRedirect httpClient)
    /\ match hc_Jar httpClient with
       | Some _ => req = built /\ jarCookies = oneTimeCookies (self w)
       | None => req = AddCookies E (oneTimeCookies (self w)) built /\ jarCookies = []
       end.
Proof.
  destruct w as [[o h oo oh oc t j rt rj l] n]. simpl.
  destruct l as [[]|], t as [t|], rt, j as [j|], rj; run_Do;
    intros Hdo; simplify_eq/=; eauto.
Qed.

Lemma three_layers {K} `{Countable K} {V} (a b c : option (gmap K V)) k :
  foldl range_assign ∅ [a; b; c] !! k
  = match entries c !! k with
    | Some v => Some v
    | None =>
        match entries b !! k with
        | Some v => Some v
        | None => entries a !! k
        end
    end.
Proof.
  simpl. rewrite !range_assign_lookup, lookup_empty.
  by destruct (entries c !! k), (entries b !! k), (entries a !! k).
Qed.

(** A request issued by [Do] keeps the URL and body it was given, and the
    method, with [GET] for the empty method. Its headers are set under
    canonical names. Apart from the [Cookie] header of a request that
    carries its cookies itself, the header of canonical name [K] is the
    value of the last visited entry of the merged headers whose name has
    that canonical form, and without such an entry, for [User-Agent] and
    [Referer], the string the resolved option holds. When all names of the
    merged headers are canonical this is, whatever the visiting order, the
    first of these that binds the name: the headers passed to [Do], the
    one-time headers, the client's default headers, the option. The
    options themselves resolve one-time value first, then client default,
    then library default. *)
Theorem issued_request_headers E method url headers body w httpClient req jarCookies w' :
  Do E method url headers body w = Done (Issued httpClient req jarCookies, w') ->
  let options := mergeOptions [Some defaultOptions; Options (self w);
                               oneTimeOptions (self w)] in
  let merged := mergeHeaders [Headers (self w); oneTimeHeaders (self w); headers] in
  req_Method req = (if decide (method = "") then "GET" else method)
  /\ req_URL req = url /\ req_Body req = body
  /\ (forall K,
        (K = "Cookie" -> is_Some (hc_Jar httpClient)) ->
        req_Header req !! K
        = match last_set (range_headers E merged) K with
          | Some v => Some v
          | None => option_header options K
          end)
  /\ (canonical_names merged ->
      forall k,
        (k = "Cookie" -> is_Some (hc_Jar httpClient)) ->
        req_Header req !! k
        = match entries headers !! k with
          | Some v => Some v
          | None =>
              match entries (oneTimeHeaders (self w)) !! k with
              | Some v => Some v
              | None =>
                  match entries (Headers (self w)) !! k with
                  | Some v => Some v
                  | None => option_header options k
                  end
              end
          end)
  /\ (forall k,
        options !! k
        = match entries (oneTimeOptions (self w)) !! k with
          | Some v => Some v
          | None =>
              match entries (Options (self w)) !! k with
              | Some v => Some v
              | None => defaultOptions !! k
              end
          end).
Proof.
  intros Hdo options merged.
  destruct (Do_issued _ _ _ _ _ _ _ _ _ _ Hdo) as (built & Hreq & _ & Hjar).
  destruct (prepareRequest_parts _ _ _ _ _ _ _ Hreq) as (Hm & Hu & Hb & _ & Hh).
  pose proof (AddCookies_parts E (oneTimeCookies (self w)) built)
    as (Hcm & Hcu & Hcb & _ & Hch).
  assert (Hsame : req_Method req = req_Method built /\ req_URL req = req_URL built
                  /\ req_Body req = req_Body built
                  /\ forall K, (K = "Cookie" -> is_Some (hc_Jar httpClient)) ->
                               req_Header req !! K = req_Header built !! K).
  { destruct (hc_Jar httpClient) as [j|]; destruct Hjar as [-> _]; [done|].
    rewrite Hcm, Hcu, Hcb. repeat (split; [reflexivity|]).
    intros K HK. apply Hch. intros ->. by destruct (HK eq_refl). }
  destruct Hsame as (-> & -> & -> & Hheader).
  assert (Hgeneral : forall K,
             (K = "Cookie" -> is_Some (hc_Jar httpClient)) ->
             req_Header req !! K
             = match last_set (range_headers E merged) K with
               | Some v => Some v
               | None => option_header options K
               end).
  { intros K HK. rewrite Hheader by done. apply Hh. }
  repeat (split; [done|]). split.
  - intros Hcanon k Hk. rewrite Hgeneral by done.
    rewrite (last_set_canonical merged) by (done || apply range_headers_visits).
    unfold merged, mergeHeaders. rewrite three_layers.
    by destruct (entries headers !! k), (entries (oneTimeHeaders (self w)) !! k),
               (entries (Headers (self w)) !! k).
  - intros k. unfold options, mergeOptions. by rewrite three_layers.
Qed.

Lemma issued_request_headers_witness :
  let follow_all := VRedirectFunc (fun _ _ => None) in
  let w := after (exec Defaults (Some {[OPT_REDIRECT_POLICY := follow_all]})
                       (Some {["Accept" := "client"; "X-Trace" := "client"]});
                  WithHeader "Accept" "once") start in
  exists httpClient req jarCookies w',
    Do plainEnv "" "http://x/" (Some {["Accept" := "call"]}) NoBody w
    = Done (Issued httpClient req jarCookies, w')
    /\ req_Method req = "GET"
    /\ req_Header req !! "Accept" = Some "call"
    /\ req_Header req !! "X-Trace" = Some "client"
    /\ req_Header req !! "User-Agent" = Some "".
Proof.
  intros follow_all w.
  assert (exists httpClient req jarCookies w',
             Do plainEnv "" "http://x/" (Some {["Accept" := "call"]}) NoBody w
             = Done (Issued httpClient req jarCookies, w'))
    as (httpClient & req & jarCookies & w' & Hrun)
    by (eexists _, _, _, _; vm_compute; reflexivity).
  exists httpClient, req, jarCookies, w'. split; [exact Hrun|].
  destruct (issued_request_headers _ _ _ _ _ _ _ _ _ _ Hrun)
    as (Hm & _ & _ & _ & Hh & _).
  split; [exact Hm|].
  assert (Hcanon : canonical_names
            (mergeHeaders [Headers (self w); oneTimeHeaders (self w);
                           Some {["Accept" := "call"]}])).
  { apply canonical_names_checked.
    match goal with |- ?P => apply (bool_decide_unpack P) end.
    vm_compute. exact I. }
  rewrite !(Hh Hcanon) by discriminate.
  repeat split; vm_compute; reflexivity.
Defined.

(** The one-time cookies reach the request by exactly one way: with a jar
    they are handed to the jar for the request URL and the request carries
    none itself; without a jar they are added to the request. Cookies given
    by several [WithCookie] calls arrive together, in the order given. *)
Theorem cookies_go_to_jar_or_request E method url headers body cookies1 cookies2
    w httpClient req jarCookies w' :
  (exec WithCookie cookies1; exec WithCookie cookies2;
   Do E method url headers body) w
  = Done (Issued httpClient req jarCookies, w') ->
  let cookies := (oneTimeCookies (self w) ++ cookies1 ++ cookies2)%list in
  match hc_Jar httpClient with
  | Some _ => jarCookies = cookies /\ req_Cookies req = []
  | None => jarCookies = [] /\ req_Cookies req = cookies
  end.
Proof.
  unfold bind at 1 2. unfold WithCookie, update. simpl. intros Hdo.
  destruct (Do_issued _ _ _ _ _ _ _ _ _ _ Hdo) as (built & Hreq & _ & Hjar).
  destruct (prepareRequest_parts _ _ _ _ _ _ _ Hreq) as (_ & _ & _ & Hc & _).
  destruct w as [[o h oo oh oc t j rt rj l] n]. simpl in *.
  destruct (hc_Jar httpClient); destruct Hjar as [-> ->]; simpl.
  - by rewrite Hc, <- app_assoc.
  - destruct (AddCookies_parts E ((oc ++ cookies1) ++ cookies2) built)
      as (_ & _ & _ & -> & _).
    by rewrite Hc, <- app_assoc.
Qed.

Lemma cookies_go_to_jar_or_request_witness :
  let a := mkCookie "a" "1" in
  let b := mkCookie "b" "2" in
  let follow_all := VRedirectFunc (fun _ _ => None) in
  let w := after (exec WithOption OPT_COOKIEJAR (VBool false);
                  WithOption OPT_REDIRECT_POLICY follow_all) start in
  exists httpClient req jarCookies w',
    (exec WithCookie [a]; exec WithCookie [b];
     Do plainEnv "GET" "http://x/" None NoBody) w
    = Done (Issued httpClient req jarCookies, w')
    /\ match hc_Jar httpClient with
       | Some _ => jarCookies = [a; b] /\ req_Cookies req = []
       | None => jarCookies = [] /\ req_Cookies req = [a; b]
       end.
Proof.
  intros a b follow_all w.
  assert (exists httpClient req jarCookies w',
             (exec WithCookie [a]; exec WithCookie [b];
              Do plainEnv "GET" "http://x/" None NoBody) w
             = Done (Issued httpClient req jarCookies, w'))
    as (httpClient & req & jarCookies & w' & Hrun)
    by (eexists _, _, _, _; vm_compute; reflexivity).
  exists httpClient, req, jarCookies, w'. split; [exact Hrun|].
  exact (cookies_go_to_jar_or_request _ _ _ _ _ _ _ _ _ _ _ _ Hrun).
Defined.

(** ** The lock *)

Lemma Do_unlocks E method url headers body w :
  lock (self w) = Some Locked ->
  exists r w',
    Do E method url headers body w = Done (r, w')
    /\ lock (self w') = Some Unlocked.
Proof.
  destruct w as [[o h oo oh oc t j rt rj l] n]. simpl. intros ->.
  destruct t as [t|], rt, j as [j|], rj; run_Do; eauto.
Qed.

(** A client that has once been through [Begin] must go through [Begin]
    before every request: after [Begin] and a request, a second request
    made without [Begin] ends in the fatal error of unlocking a mutex that
    is not held, whatever the two requests are. *)
Theorem request_without_Begin_after_Begin_is_fatal
    E method1 url1 headers1 body1 method2 url2 headers2 body2 w :
  lock (self w) <> Some Locked ->
  (exec Begin;
   exec Do E method1 url1 headers1 body1;
   Do E method2 url2 headers2 body2) w
  = Crash "sync: unlock of unlocked mutex".
Proof.
  intros Hfree.
  assert (Hbegin : exists w1, Begin w = Done (tt, w1) /\ lock (self w1) = Some Locked).
  { destruct w as [[o h oo oh oc t j rt rj l] n]. simpl in Hfree.
    unfold Begin, bind, getClient, update, blocks. simpl.
    destruct l as [[]|]; [done|..]; simpl; eauto. }
  destruct Hbegin as (w1 & Hb & Hl1).
  destruct (Do_unlocks E method1 url1 headers1 body1 w1 Hl1) as (r & w2 & Hd & Hl2).
  unfold bind. rewrite Hb, Hd. by apply Do_free_lock.
Qed.

Lemma request_without_Begin_after_Begin_is_fatal_witness :
  (exec Begin;
   exec Do plainEnv "GET" "http://x/" None NoBody;
   Do plainEnv "GET" "http://x/" None NoBody) start
  = Crash "sync: unlock of unlocked mutex".
Proof.
  apply request_without_Begin_after_Begin_is_fatal. discriminate.
Defined.

(** ** The default client after its first request *)

(** Whatever the first request through the default client is and however
    it ends, it leaves the default client in exactly the state of a client
    made by [NewClient]: nothing cached, both flags set. *)
Theorem default_client_becomes_NewClient E method url headers body :
  exists r w',
    Facade.Do E method url headers body Facade.start = Done (r, w')
    /\ self w' = NewClient.
Proof.
  unfold Facade.Do, Facade.start, Facade.client, Facade.new_Client.
  run_Do; eauto.
Qed.

(** ** The cache over sequences of calls *)

Lemma keeps_cache_refl w : keeps_cache w w.
Proof. by unfold keeps_cache. Qed.

Lemma keeps_cache_trans w1 w2 w3 :
  keeps_cache w1 w2 -> keeps_cache w2 w3 -> keeps_cache w1 w3.
Proof. unfold keeps_cache. intros (-> & -> & ->) (-> & -> & ->). done. Qed.

Lemma WithHeader_keeps_cache option val w :
  exists w', WithHeader option val w = Done (tt, w') /\ keeps_cache w w'.
Proof.
  destruct w as [[] n]. unfold WithHeader, update. eexists. split; [reflexivity|].
  by unfold keeps_cache.
Qed.

Lemma WithHeaders_keeps_cache headers w r w' :
  WithHeaders headers w = Done (r, w') -> keeps_cache w w'.
Proof.
  unfold WithHeaders. revert w r w'.
  apply (map_fold_weak_ind
    (fun (m : M unit) (_ : gmap string string) =>
       forall w r w', m w = Done (r, w') -> keeps_cache w w')).
  - intros w r w' [= _ <-]. apply keeps_cache_refl.
  - intros i x m rest _ IH w r w'. unfold bind.
    destruct (rest w) as [[[] w1]| |] eqn:Hrest; try discriminate.
    destruct (WithHeader_keeps_cache i x w1) as (w2 & -> & Hk).
    intros [= _ <-]. eapply keeps_cache_trans; [|exact Hk]. by eapply IH.
Qed.

Lemma configuring_keeps_cache E c w r w' :
  match c with
  | CallDo _ _ _ _ | CallGet _ _ | CallPost _ _ _ | CallPostMultipart _ _ => False
  | _ => True
  end ->
  call E c w = Done (r, w') -> r = None /\ keeps_cache w w'.
Proof.
  destruct c; try done; intros _; unfold call, bind, ret.
  - destruct w as [[o h oo oh oc t j rt rj l] n].
    unfold Defaults, bind, getClient, update. simpl.
    destruct o, h; simpl; intros [= <- <-]; by unfold keeps_cache.
  - destruct w as [[o h oo oh oc t j rt rj l] n].
    unfold Begin, bind, getClient, update, blocks. simpl.
    destruct l as [[]|]; simpl; try discriminate;
      intros [= <- <-]; by unfold keeps_cache.
  - rewrite WithOption_world. destruct w as [[] n].
    intros [= <- <-]. by unfold keeps_cache.
  - unfold WithOptions. rewrite fold_WithOption. destruct w as [[] n].
    intros [= <- <-]. by unfold keeps_cache.
  - destruct (WithHeader_keeps_cache option val w) as (w1 & -> & Hk).
    by intros [= <- <-].
  - destruct (WithHeaders headers w) as [[[] w1]| |] eqn:Hh; try discriminate.
    intros [= <- <-]. split; [done|]. by eapply WithHeaders_keeps_cache.
  - destruct w as [[] n]. unfold WithCookie, update.
    intros [= <- <-]. by unfold keeps_cache.
Qed.

Lemma Do_cache E method url headers body w r w' :
  Do E method url headers body w = Done (r, w') ->
  reuseTransport (self w') = true
  /\ (forall t, transport (self w) = Some t -> transport (self w') = Some t)
  /\ (forall j, jar (self w) = Some j -> jar (self w') = Some j)
  /\ (forall t tr, transport (self w) = Some t -> reuseTransport (self w) = true ->
        reply_transport r = Some tr -> tr = t).
Proof.
  destruct w as [[o h oo oh oc t j rt rj l] n]. simpl.
  destruct l as [[]|], t as [t|], rt, j as [j|], rj; run_Do;
    intros Hdo; simplify_eq/=;
    (split; [reflexivity|]); (split; [|split]); intros; simplify_eq/=; done.
Qed.

Lemma PostMultipart_cache E url params w r w' :
  PostMultipart E url params w = Done (r, w') ->
  (exists err, r = Failed err /\ w' = w)
  \/ exists headers body, Do E "POST" url headers body w = Done (r, w').
Proof.
  unfold PostMultipart.
  destruct (writeParts E params) as [[err|parts]| |]; try discriminate.
  - intros [= <- <-]. left. eauto.
  - intros Hdo. right. eauto.
Qed.

(** Every request method is a [Do], or returns a failure without touching
    the client. *)
Lemma request_is_Do E c w r w' :
  call E c w = Done (r, w') ->
  match c with
  | CallDo _ _ _ _ | CallGet _ _ | CallPost _ _ _ | CallPostMultipart _ _ =>
      exists reply,
        r = Some reply
        /\ ((exists err, reply = Failed err /\ w' = w)
            \/ exists method url headers body,
                 Do E method url headers body w = Done (reply, w'))
  | _ => True
  end.
Proof.
  destruct c; try done; unfold call, bind, ret.
  - destruct (Do E method url headers body w) as [[reply w1]| |] eqn:Hdo;
      try discriminate.
    intros [= <- <-]. exists reply. split; [done|]. right. eauto.
  - unfold Get.
    destruct (Do E "GET" (addQuery url params) None NoBody w) as [[reply w1]| |] eqn:Hdo;
      try discriminate.
    intros [= <- <-]. exists reply. split; [done|]. right. eauto.
  - unfold Post, crash, blocks. destruct (checkParamFile params) as [[]| |];
      try discriminate.
    + destruct (PostMultipart E url again w) as [[reply w1]| |] eqn:Hpm;
        try discriminate.
      intros [= <- <-]. exists reply. split; [done|].
      destruct (PostMultipart_cache _ _ _ _ _ _ Hpm) as [?|(? & ? & ?)];
        [by left|right; eauto].
    + match goal with
      | |- context [Do ?E ?m ?u ?h ?b ?w] =>
          destruct (Do E m u h b w) as [[reply w1]| |] eqn:Hdo; try discriminate
      end.
      intros [= <- <-]. exists reply. split; [done|]. right. eauto.
  - destruct (PostMultipart E url params w) as [[reply w1]| |] eqn:Hpm;
      try discriminate.
    intros [= <- <-]. exists reply. split; [done|].
    destruct (PostMultipart_cache _ _ _ _ _ _ Hpm) as [?|(? & ? & ?)];
      [by left|right; eauto].
Qed.

Lemma call_cache E c w r w' :
  call E c w = Done (r, w') ->
  (forall t, transport (self w) = Some t -> transport (self w') = Some t)
  /\ (forall j, jar (self w) = Some j -> jar (self w') = Some j)
  /\ (forall t, transport (self w) = Some t -> reuseTransport (self w) = true ->
        reuseTransport (self w') = true
        /\ forall reply tr, r = Some reply -> reply_transport reply = Some tr -> tr = t).
Proof.
  intros Hcall.
  assert (Hreq := request_is_Do E c w r w' Hcall).
  assert (Hconf := configuring_keeps_cache E c w r w').
  destruct c;
    try (destruct (Hconf I Hcall) as (-> & Ht & Hj & Hrt);
         rewrite Ht, Hj, Hrt; repeat split; try done; intros; done);
    clear Hconf;
    destruct Hreq as (reply & -> & [(err & -> & ->)|(m & u & h & b & Hdo)]);
    try (repeat split; try done; intros; simplify_eq/=; done);
    destruct (Do_cache _ _ _ _ _ _ _ _ Hdo) as (Hrt & Ht & Hj & Hused);
    (split; [exact Ht|split; [exact Hj|]]);
    intros t Hc Hflag; (split; [exact Hrt|]);
    intros reply' tr [= <-] Htr; by eapply Hused.
Qed.

(** Once a client has cached a transport, or a jar, no sequence of method
    calls replaces it or drops it: [Defaults] with other timeouts or
    another proxy, one-time options, failed requests, none of them reaches
    the cached object. *)
Theorem cached_transport_and_jar_stay E cs w rs w' :
  calls E cs w = Done (rs, w') ->
  (forall t, transport (self w) = Some t -> transport (self w') = Some t)
  /\ (forall j, jar (self w) = Some j -> jar (self w') = Some j).
Proof.
  revert w rs w'. induction cs as [|c rest IH]; intros w rs w'; simpl.
  - by intros [= _ <-].
  - unfold bind.
    destruct (call E c w) as [[r w1]| |] eqn:Hcall; try discriminate.
    destruct (calls E rest w1) as [[rs1 w2]| |] eqn:Hrest; try discriminate.
    intros [= _ <-].
    destruct (call_cache _ _ _ _ _ Hcall) as (Ht & Hj & _).
    destruct (IH _ _ _ Hrest) as (Ht' & Hj').
    split; eauto.
Qed.

Lemma cached_transport_and_jar_stay_witness :
  let cached := mkTransport 0 0 0 ProxyUnset in
  let follow_all := VRedirectFunc (fun _ _ => None) in
  let w1 := after (Do plainEnv "GET" "http://x/" None NoBody) start in
  let cs := [ CallDefaults (Some (<[OPT_TIMEOUT_MS := VInt 5]>
                                    {[OPT_REDIRECT_POLICY := follow_all]})) None;
              CallWithOption OPT_COOKIEJAR (VBool false);
              CallGet "http://x/" [] ] in
  exists rs w2,
    calls plainEnv cs w1 = Done (rs, w2)
    /\ transport (self w2) = Some cached
    /\ jar (self w2) = Some (mkJar 1).
Proof.
  intros cached follow_all w1 cs.
  assert (exists rs w2, calls plainEnv cs w1 = Done (rs, w2))
    as (rs & w2 & Hrun) by (eexists _, _; vm_compute; reflexivity).
  exists rs, w2. split; [exact Hrun|].
  destruct (cached_transport_and_jar_stay _ _ _ _ _ Hrun) as (Ht & Hj).
  split; [apply Ht|apply Hj]; vm_compute; reflexivity.
Defined.

(** From the moment a transport is cached with the flag set, every request
    of every later sequence of calls is issued through that transport. *)
Theorem requests_keep_using_cached_transport E cs w rs w' t :
  transport (self w) = Some t -> reuseTransport (self w) = true ->
  calls E cs w = Done (rs, w') ->
  Forall (fun reply => forall tr, reply_transport reply = Some tr -> tr = t) rs.
Proof.
  revert w rs w'. induction cs as [|c rest IH]; intros w rs w' Ht Hflag; simpl.
  - intros [= <- _]. constructor.
  - unfold bind.
    destruct (call E c w) as [[r w1]| |] eqn:Hcall; try discriminate.
    destruct (calls E rest w1) as [[rs1 w2]| |] eqn:Hrest; try discriminate.
    intros [= <- _].
    destruct (call_cache _ _ _ _ _ Hcall) as (Ht1 & _ & Hkeep).
    destruct (Hkeep t Ht Hflag) as (Hflag1 & Hused).
    apply Forall_app. split.
    + destruct r as [reply|]; simpl; constructor; [|constructor].
      intros tr. by apply Hused.
    + eapply IH; [by apply Ht1|exact Hflag1|exact Hrest].
Qed.

Lemma requests_keep_using_cached_transport_witness :
  let cached := mkTransport 0 0 0 ProxyUnset in
  let follow_all := VRedirectFunc (fun _ _ => None) in
  let w1 := after (Do plainEnv "GET" "http://x/" None NoBody) start in
  let cs := [ CallDefaults (Some (<[OPT_TIMEOUT_MS := VInt 5]>
                                    {[OPT_REDIRECT_POLICY := follow_all]})) None;
              CallWithOption OPT_PROXY (VString "proxy:8080");
              CallGet "http://x/" [];
              CallPost "http://x/" [("a", ["1"])] [("a", ["1"])] ] in
  exists rs w2,
    calls plainEnv cs w1 = Done (rs, w2)
    /\ Forall (fun reply => forall tr, reply_transport reply = Some tr -> tr = cached) rs.
Proof.
  intros cached follow_all w1 cs.
  assert (exists rs w2, calls plainEnv cs w1 = Done (rs, w2))
    as (rs & w2 & Hrun) by (eexists _, _; vm_compute; reflexivity).
  exists rs, w2. split; [exact Hrun|].
  eapply (requests_keep_using_cached_transport plainEnv cs w1); [..|exact Hrun];
    vm_compute; reflexivity.
Defined.

(** ** Multipart POST *)

Lemma writeParts_failing_file E before name path more after err :
  Forall (passes E) before ->
  is_file_param name = true -> os_Open E path = inl err ->
  writeParts E ((before ++ (name, path :: more) :: after)%list) = Done (inl err).
Proof.
  intros Hbefore Hfile Hopen.
  induction Hbefore as [|[n vs] rest [Hname Hpass] _ IH]; simpl.
  - unfold is_file_param in Hfile.
    destruct (String.get 0 name) as [c|]; [|done]. rewrite Hfile.
    unfold addFormFile. by rewrite Hopen.
  - simpl in *. unfold is_file_param in Hpass.
    destruct n as [|c n]; [done|]. simpl in *.
    destruct (Ascii.eqb c "@") eqn:Hc.
    + destruct (Hpass eq_refl) as (p & m & content & -> & Hp).
      unfold addFormFile. rewrite Hp. by rewrite IH.
    + by rewrite IH.
Qed.

(** When a file part cannot be opened, and the loop reaches it (everything
    visited before is a plain field or a file that opens), [PostMultipart]
    returns that error and, unlike the error paths of [Do], resets nothing:
    the world is exactly the one it was called in, with its one-time
    options, headers and cookies and with the lock still held. *)
Theorem failed_file_leaves_client_untouched E url before name path more after err w :
  Forall (passes E) before ->
  is_file_param name = true -> os_Open E path = inl err ->
  PostMultipart E url ((before ++ (name, path :: more) :: after)%list) w
  = Done (Failed err, w).
Proof.
  intros Hbefore Hfile Hopen. unfold PostMultipart.
  by rewrite (writeParts_failing_file E before name path more after err).
Qed.

Lemma failed_file_leaves_client_untouched_witness :
  let w := after (exec Begin; WithOption OPT_TIMEOUT_MS (VInt 1)) start in
  let err := ForeignError "os" "open /missing: no such file or directory" in
  PostMultipart plainEnv "http://x/"
    (([("a", ["1"]); ("@h", ["/etc/hosts"])] ++ ("@f", ["/missing"]) :: [("b", ["2"])])%list) w
  = Done (Failed err, w)
  /\ lock (self w) = Some Locked
  /\ oneTimeOptions (self w) = Some {[OPT_TIMEOUT_MS := VInt 1]}.
Proof.
  intros w err. split; [|split; reflexivity].
  apply failed_file_leaves_client_untouched; [|reflexivity..].
  repeat constructor; try discriminate.
  intros _. by exists "/etc/hosts", [], "127.0.0.1 localhost".
Defined.

(** Of the values of a file parameter only the first is used: further
    values change nothing in what [PostMultipart] does. *)
Theorem file_parameter_uses_first_value_only E url before name path more after w :
  is_file_param name = true ->
  PostMultipart E url ((before ++ (name, path :: more) :: after)%list) w
  = PostMultipart E url ((before ++ (name, [path]) :: after)%list) w.
Proof.
  intros Hfile. unfold PostMultipart.
  assert (Hparts : writeParts E ((before ++ (name, path :: more) :: after)%list)
                   = writeParts E ((before ++ (name, [path]) :: after)%list)).
  { induction before as [|[n vs] rest IH]; simpl.
    - unfold is_file_param in Hfile.
      destruct (String.get 0 name) as [c|]; [|done]. by rewrite Hfile.
    - by rewrite IH. }
  by rewrite Hparts.
Qed.

Lemma file_parameter_uses_first_value_only_witness :
  PostMultipart plainEnv "http://x/"
    (([("a", ["1"])] ++ ("@h", "/etc/hosts" :: ["/missing"; "/other"]) :: [])%list) start
  = PostMultipart plainEnv "http://x/"
      (([("a", ["1"])] ++ ("@h", ["/etc/hosts"]) :: [])%list) start.
Proof. apply file_parameter_uses_first_value_only. reflexivity. Defined.

(** ** POST routing does not depend on the visiting order *)

Lemma existsb_Permutation {A} (f : A -> bool) (l l' : list A) :
  l ≡ₚ l' -> existsb f l = existsb f l'.
Proof.
  induction 1 as [|x l l' _ IH|x y l|l l' l'' _ IH1 _ IH2]; simpl.
  - done.
  - by rewrite IH.
  - by destruct (f x), (f y).
  - by rewrite IH1.
Qed.

(** On a parameter set without an empty name, [checkParamFile] answers the
    same in whatever order the runtime visits the map: [true] exactly when
    some name begins with [@]. *)
Theorem checkParamFile_order_independent (params params' : Values) :
  params ≡ₚ params' ->
  Forall (fun p => p.1 <> "") params ->
  checkParamFile params = checkParamFile params'
  /\ checkParamFile params = Done (existsb (fun p => is_file_param p.1) params).
Proof.
  intros Hperm Hnames.
  assert (Hnames' : Forall (fun p => p.1 <> "") params') by (by rewrite <- Hperm).
  rewrite !checkParamFile_routes by done.
  split; [|done]. f_equal. by apply existsb_Permutation.
Qed.

Lemma checkParamFile_order_independent_witness :
  checkParamFile [("a", ["1"]); ("@f", ["/etc/hosts"])]
  = checkParamFile [("@f", ["/etc/hosts"]); ("a", ["1"])].
Proof.
  apply checkParamFile_order_independent.
  - apply Permutation_swap.
  - repeat constructor; discriminate.
Defined.

(** ** Reading cookies *)

Lemma fold_cookies_lookup (found : list Cookie) (acc : gmap string string) key :
  foldl (fun cookies cookie => <[cookie_Name cookie := cookie_Value cookie]> cookies)
        acc found !! key
  = match last_named found key with
    | Some v => Some v
    | None => acc !! key
    end.
Proof.
  revert acc. unfold last_named.
  induction found as [|c rest IH]; intros acc; simpl; [done|].
  rewrite IH, filter_cons.
  destruct (decide (cookie_Name c = key)) as [<-|Hne].
  - rewrite last_cons.
    destruct (last (filter _ rest)); simpl; [done|].
    by rewrite lookup_insert_eq.
  - destruct (last (filter _ rest)); simpl; [done|].
    by rewrite lookup_insert_ne.
Qed.

Lemma first_named_head (found : list Cookie) key :
  first_named found key
  = default "" (cookie_Value <$> head (filter (fun c => cookie_Name c = key) found)).
Proof.
  induction found as [|c rest IH]; simpl; [done|].
  rewrite filter_cons. by destruct (decide (cookie_Name c = key)).
Qed.

(** When the jar answers with several cookies of one name, [CookieValue]
    reports the first of them and [CookieValues] the last; a name the jar
    does not answer is [""] for the one and unbound for the other. A client
    without a jar has no cookies at all. *)
Theorem cookie_value_first_cookie_values_last :
  (forall jarCookies client url key found,
      Cookies jarCookies client url = Done found ->
      CookieValue jarCookies client url key
      = Done (default "" (cookie_Value <$>
                head (filter (fun c => cookie_Name c = key) found)))
      /\ exists values,
           CookieValues jarCookies client url = Done values
           /\ values !! key
              = cookie_Value <$> last (filter (fun c => cookie_Name c = key) found))
  /\ (forall jarCookies client url key,
      jar client = None ->
      Cookies jarCookies client url = Done []
      /\ CookieValues jarCookies client url = Done ∅
      /\ CookieValue jarCookies client url key = Done "").
Proof.
  split.
  - intros jarCookies client url key found Hfound.
    unfold CookieValue, CookieValues. rewrite Hfound. split.
    + by rewrite first_named_head.
    + eexists. split; [reflexivity|].
      rewrite fold_cookies_lookup, lookup_empty. unfold last_named.
      by destruct (last _).
  - intros jarCookies client url key Hjar.
    unfold CookieValue, CookieValues, Cookies. by rewrite Hjar.
Qed.

Lemma cookie_value_first_cookie_values_last_witness :
  let jarCookies : Jar -> string -> outcome (list Cookie) :=
    fun _ _ => Done [mkCookie "sid" "old"; mkCookie "lang" "en"; mkCookie "sid" "new"] in
  let client := set_jar (Some (mkJar 1)) NewClient in
  CookieValue jarCookies client "http://x/" "sid" = Done "old"
  /\ exists values,
       CookieValues jarCookies client "http://x/" = Done values
       /\ values !! "sid" = Some "new".
Proof.
  intros jarCookies client.
  destruct (proj1 cookie_value_first_cookie_values_last jarCookies client
              "http://x/" "sid" _ eq_refl) as (Hfirst & values & Hvalues & Hlast).
  split; [exact Hfirst|]. exists values. split; [exact Hvalues|].
  rewrite Hlast. reflexivity.
Defined.

(** ** [Do] resets on every return *)

Lemma Do_always_resets_witness :
  let w := after (exec Begin; exec WithOption OPT_TIMEOUT_MS (VBool true);
                  exec WithHeader "Accept" "once";
                  WithCookie [mkCookie "a" "1"]) start in
  exists r w',
    Do plainEnv "GET" "http://x/" None NoBody w = Done (r, w')
    /\ oneTimeOptions (self w') = None
    /\ oneTimeHeaders (self w') = None
    /\ oneTimeCookies (self w') = []
    /\ reuseTransport (self w') = true
    /\ reuseJar (self w') = true
    /\ lock (self w') = Some Unlocked.
Proof.
  intros w.
  destruct (Do_always_resets plainEnv "GET" "http://x/" None NoBody w)
    as (r & w' & Hdo & Hoo & Hoh & Hoc & Hrt & Hrj & Hl & _); [discriminate|].
  exists r, w'. repeat (split; [assumption|]). rewrite Hl. reflexivity.
Defined.

(** ** A one-time cookie jar *)

Lemma prepareJar_of id (options : gmap Z value) v :
  options !! OPT_COOKIEJAR = Some v ->
  prepareJar id options
  = match v with
    | VBool true => inr (Some (mkJar id))
    | VBool false => inr None
    | VJar j => inr (Some j)
    | _ => inl (Errorf "invalid cookiejar")
    end.
Proof. intros Hv. unfold prepareJar. rewrite Hv. by destruct v as [|[]| | | | |]. Qed.

(** A one-time [OPT_COOKIEJAR] is honoured for its request and leaves the
    client's cached jar alone: [false] issues the request without a jar, a
    jar instance issues it with that instance, [true] issues it with a jar
    newly made for this request; in each case the jar the client has cached
    (or its absence) is the same after the request as before. *)
Theorem one_time_jar_is_honoured E v method url headers body w httpClient req jarCookies w' :
  (exec WithOption OPT_COOKIEJAR v; Do E method url headers body) w
  = Done (Issued httpClient req jarCookies, w') ->
  jar (self w') = jar (self w)
  /\ match v with
     | VBool true =>
         exists id, hc_Jar httpClient = Some (mkJar id)
                    /\ (next_id w <= id < next_id w')%nat
     | VBool false => hc_Jar httpClient = None
     | VJar j => hc_Jar httpClient = Some j
     | _ => False
     end.
Proof.
  unfold bind at 1. rewrite WithOption_world.
  destruct w as [[o h oo oh oc t j rt rj l] n].
  unfold set_reuseJar, set_oneTimeOptions. simpl.
  rewrite andb_false_r.
  destruct l as [[]|], t as [t|], rt, j as [j|]; run_Do;
    intros Hdo; simplify_eq/=;
    repeat match goal with
           | H : prepareJar ?id ?opts = _ |- _ =>
               let Hl := fresh in
               assert (Hl : opts !! OPT_COOKIEJAR = Some v)
                 by (unfold mergeOptions; rewrite three_layers; simpl;
                     by rewrite lookup_insert_eq);
               rewrite (prepareJar_of id opts v Hl) in H; clear Hl
           end;
    (split; [reflexivity|]);
    destruct v as [|[]| | | | |]; simplify_eq/=;
    try reflexivity; eexists; (split; [reflexivity|]); lia.
Qed.

Lemma one_time_jar_is_honoured_witness :
  let follow_all := VRedirectFunc (fun _ _ => None) in
  let w := after (exec Defaults (Some {[OPT_REDIRECT_POLICY := follow_all]}) None;
                  Do plainEnv "GET" "http://x/" None NoBody) start in
  exists httpClient req jarCookies w',
    (exec WithOption OPT_COOKIEJAR (VJar (mkJar 77));
     Do plainEnv "GET" "http://x/" None NoBody) w
    = Done (Issued httpClient req jarCookies, w')
    /\ jar (self w') = Some (mkJar 1)
    /\ hc_Jar httpClient = Some (mkJar 77).
Proof.
  intros follow_all w.
  assert (exists httpClient req jarCookies w',
             (exec WithOption OPT_COOKIEJAR (VJar (mkJar 77));
              Do plainEnv "GET" "http://x/" None NoBody) w
             = Done (Issued httpClient req jarCookies, w'))
    as (httpClient & req & jarCookies & w' & Hrun)
    by (eexists _, _, _, _; vm_compute; reflexivity).
  exists httpClient, req, jarCookies, w'. split; [exact Hrun|].
  destruct (one_time_jar_is_honoured _ _ _ _ _ _ _ _ _ _ _ Hrun) as (Hj & Hused).
  split; [rewrite Hj; vm_compute; reflexivity|exact Hused].
Defined.

(** ** Witnesses at the package's own tables *)

Lemma hasOption_true_iff_differs_witness :
  hasOption OPT_USERAGENT transportOptions = true
  /\ hasOption OPT_PROXY transportOptions = true.
Proof.
  split.
  - apply (proj1 (proj2 hasOption_true_iff_differs)). discriminate.
  - apply (proj1 hasOption_true_iff_differs).
    exists OPT_CONNECTTIMEOUT. split; [apply list_elem_of_here|discriminate].
Defined.

Lemma range_assign_any_order_witness :
  foldl (fun acc kv => <[kv.1 := kv.2]> acc)
        ({[OPT_TIMEOUT := VInt 9]} : gmap Z value)
        [(OPT_TIMEOUT, VInt 1); (OPT_PROXY, VString "p")]
  = range_assign {[OPT_TIMEOUT := VInt 9]}
      (Some (<[OPT_PROXY := VString "p"]> {[OPT_TIMEOUT := VInt 1]})).
Proof.
  apply range_assign_any_order.
  assert (Hlist : map_to_list (entries (Some (<[OPT_PROXY := VString "p"]>
                                 ({[OPT_TIMEOUT := VInt 1]} : gmap Z value))))
                  = [(OPT_PROXY, VString "p"); (OPT_TIMEOUT, VInt 1)])
    by (vm_compute; reflexivity).
  rewrite Hlist. apply Permutation_swap.
Defined.
